(** * eventually: retry with back-off and a failure policy

    A shallow embedding of [src/eventually.ts] and the properties of its
    retry engine ([tryDo]), its options resolution ([resolveOptions],
    [configureDefaults]) and its failure policy ([eventually],
    [handleComplexEventualFailResult], [handleSimpleEventuallyResult]).

    Conventions of the embedding.
    - A JavaScript [number] is an integer of [Z]; [undefined] in an optional
      field is [None].
    - Objects and arrays live in a store and are passed by location, since
      [resolveOptions] writes into the object it is given and [tryDo]
      shifts an array.
    - A promise is observed through the way it settles ([Settled]); a
      promise that never settles is [Pending].
    - Caller code (the operation, the [fail] handler, the [redirect]
      function) steps a state of its own, the state its closures capture,
      and does not write to the store; the options object a handler
      resolves to is given by its location in the store.
      The engine's calls to its collaborators are recorded in a trace.
    - [eventually] re-enters itself without bound (strategy [retry]), so it
      takes a budget of rounds; [None] is "budget used up" or "a location
      outside the store", which no run of the program can produce. *)

From Stdlib Require Import ZArith List Lia.
From stdpp Require Import base option list gmap.

Local Open Scope Z_scope.

(** ** Values *)

Definition loc := positive.

(** How an awaited promise settles. *)
Inductive Settled (E A : Type) : Type :=
| Fulfilled (v : A)
| Rejected (e : E)
| Pending.
Arguments Fulfilled {E A} v.
Arguments Rejected {E A} e.
Arguments Pending {E A}.

(** [enum ErrorHandlingStrategies] *)
Inductive ErrorHandlingStrategies := strategy_fail | strategy_halt | strategy_suppress | strategy_retry.

Definition strategy_value (s : ErrorHandlingStrategies) : Z :=
  match s with
  | strategy_fail => 1
  | strategy_halt => 2
  | strategy_suppress => 3
  | strategy_retry => 4
  end.

(** [backoff?: number[] | number] *)
Inductive Backoff := BNum (ms : Z) | BArr (a : loc).

(** What a [fail] handler resolves to: a strategy (a number at run time) or
    an options object. *)
Inductive HandlerResult := HStrategy (s : Z) | HObject (o : loc).

(** What the engine asks of its collaborators. *)
Inductive Event (E : Type) :=
| Attempt                 (* func() *)
| Sleep (ms : Z)          (* sleep(ms) *)
| FailHandler (e : E).    (* fail(lastError) *)
Arguments Attempt {E}.
Arguments Sleep {E} ms.
Arguments FailHandler {E} e.

Section Eventually.

Context {U T E : Type}.

(** [new Error(`Unhandled failure strategy ...`)], built from the strategy and
    the last error. *)
Variable unhandledStrategy : Z -> E -> E.

(** [EventualFunction<T>], called without arguments. *)
Definition EventualFunction := U -> Settled E T * U.
Definition ErrorHandler := E -> U -> Settled E HandlerResult * U.
Definition Redirect := E -> U -> Settled E T * U.

(** [IRedirectingEventuallyOptions<T>] *)
Record Options := mkOptions {
  retries : option Z;
  fail : option ErrorHandler;
  backoff : option Backoff;
  redirect : option Redirect }.

(** The module's variables, the store and the caller's closures. *)
Record World := mkWorld {
  objects : gmap loc Options;
  arrays : gmap loc (list Z);
  defaultRetries : Z;
  defaultFailHandler : ErrorHandler;
  defaultBackoff : loc;
  defaultOptions : loc;
  closure : U;
  trace : list (Event E) }.

Definition set_objects (f : gmap loc Options -> gmap loc Options) (w : World) : World :=
  mkWorld (f (objects w)) (arrays w) (defaultRetries w) (defaultFailHandler w)
          (defaultBackoff w) (defaultOptions w) (closure w) (trace w).

Definition set_arrays (f : gmap loc (list Z) -> gmap loc (list Z)) (w : World) : World :=
  mkWorld (objects w) (f (arrays w)) (defaultRetries w) (defaultFailHandler w)
          (defaultBackoff w) (defaultOptions w) (closure w) (trace w).

Definition set_closure (u : U) (w : World) : World :=
  mkWorld (objects w) (arrays w) (defaultRetries w) (defaultFailHandler w)
          (defaultBackoff w) (defaultOptions w) u (trace w).

Definition emit (ev : Event E) (w : World) : World :=
  mkWorld (objects w) (arrays w) (defaultRetries w) (defaultFailHandler w)
          (defaultBackoff w) (defaultOptions w) (closure w) (trace w ++ [ev]).

Definition alloc_object (o : Options) (w : World) : loc * World :=
  let l := fresh (dom (objects w)) in (l, set_objects (insert l o) w).

Definition alloc_array (xs : list Z) (w : World) : loc * World :=
  let a := fresh (dom (arrays w)) in (a, set_arrays (insert a xs) w).

(** ** Helpers *)

(** [x || d] on a number that may be undefined: 0 is falsy. *)
Definition num_or (x : option Z) (d : Z) : Z :=
  match x with
  | Some v => if v =? 0 then d else v
  | None => d
  end.

(** [options.backoff || defaultBackoff]: an array is truthy, also when it is
    empty. *)
Definition backoff_or (x : option Backoff) (d : loc) : Backoff :=
  match x with
  | Some (BNum v) => if v =? 0 then BArr d else BNum v
  | Some (BArr a) => BArr a
  | None => BArr d
  end.

Definition omit_redirect (o : Options) : Options :=
  mkOptions (retries o) (fail o) (backoff o) None.

(** [omit(obj, "redirect")]: a new object with the other keys. *)
Definition omit (l : loc) (w : World) : option (loc * World) :=
  o ← objects w !! l;
  Some (alloc_object (omit_redirect o) w).

Definition ensureArray (value : Backoff) (w : World) : loc * World :=
  match value with
  | BArr a => (a, w)
  | BNum v => alloc_array [v] w
  end.

(** ** The retry engine *)

Definition sleep (ms : Z) (w : World) : World := emit (Sleep ms) w.

(** [backoff.slice()] *)
Definition slice (a : loc) (w : World) : option (loc * World) :=
  xs ← arrays w !! a;
  Some (alloc_array xs w).

(** [backoff.shift()] *)
Definition shift (b : loc) (w : World) : option (option Z * World) :=
  xs ← arrays w !! b;
  match xs with
  | [] => Some (None, w)
  | x :: rest => Some (Some x, set_arrays (insert b rest) w)
  end.

(** [await func()] *)
Definition call (func : EventualFunction) (w : World) : Settled E T * World :=
  let '(r, u) := func (closure w) in (r, set_closure u (emit Attempt w)).

(** The [do ... while (attempts++ < retries)] loop. [n] bounds the
    iterations left; [tryDo] starts it with enough of them. *)
Fixpoint tryDo_loop (n : nat) (func : EventualFunction) (retries : Z)
    (backoff : loc) (fallbackBackoff : Z) (attempts : Z) (w : World)
  : option (Settled E T * World) :=
  match n with
  | O => None
  | S n =>
    w ← (if 0 <? attempts
         then '(x, w) ← shift backoff w;
              let backoffMs := num_or x fallbackBackoff in
              Some (sleep backoffMs w)
         else Some w);
    let '(r, w) := call func w in
    match r with
    | Rejected lastError =>
      if attempts <? retries
      then tryDo_loop n func retries backoff fallbackBackoff (attempts + 1) w
      else Some (Rejected lastError, w)
    | _ => Some (r, w)
    end
  end.

Definition tryDo (func : EventualFunction) (retries : Z) (backoff : loc) (w : World)
  : option (Settled E T * World) :=
  '(backoff, w) ← slice backoff w;
  xs ← arrays w !! backoff;
  let fallbackBackoff := num_or (last xs) 0 in
  tryDo_loop (S (Z.to_nat retries)) func retries backoff fallbackBackoff 0 w.

(** ** Defaults *)

(** [async () => ErrorHandlingStrategies.fail], the initial
    [defaultFailHandler]. *)
Definition initialFailHandler : ErrorHandler :=
  fun _ u => (Fulfilled (HStrategy (strategy_value strategy_fail)), u).

(** The module's state once it is loaded: [defaultRetries = 0],
    [defaultFailHandler], [defaultBackoff = []], and the object
    [defaultOptions] built from the three of them. *)
Definition initial (u : U) : World :=
  let a := 1%positive in
  let d := 1%positive in
  mkWorld {[ d := mkOptions (Some 0) (Some initialFailHandler) (Some (BArr a)) None ]}
          {[ a := [] ]} 0 initialFailHandler a d u [].

Definition set_defaultRetries (r : Z) (w : World) : World :=
  mkWorld (objects w) (arrays w) r (defaultFailHandler w)
          (defaultBackoff w) (defaultOptions w) (closure w) (trace w).

Definition set_defaultFailHandler (h : ErrorHandler) (w : World) : World :=
  mkWorld (objects w) (arrays w) (defaultRetries w) h
          (defaultBackoff w) (defaultOptions w) (closure w) (trace w).

Definition set_defaultBackoff (a : loc) (w : World) : World :=
  mkWorld (objects w) (arrays w) (defaultRetries w) (defaultFailHandler w)
          a (defaultOptions w) (closure w) (trace w).

Definition configureDefaults (opts : loc) (w : World) : option World :=
  o ← objects w !! opts;
  let w := match retries o with Some r => set_defaultRetries r w | None => w end in
  let w := match fail o with Some h => set_defaultFailHandler h w | None => w end in
  let w := match backoff o with
           | Some b => let '(a, w) := ensureArray b w in set_defaultBackoff a w
           | None => w
           end in
  Some w.

(** The loop over [Object.keys(defaultOptions)], which are [retries], [fail]
    and [backoff]: a key that is undefined in [o] takes the value [d] has. *)
Definition fill (d o : Options) : Options :=
  mkOptions (match retries o with None => retries d | r => r end)
            (match fail o with None => fail d | h => h end)
            (match backoff o with None => backoff d | b => b end)
            (redirect o).

Definition resolveOptions (options : option loc) (w : World) : option (loc * World) :=
  match options with
  | None => Some (defaultOptions w, w)
  | Some l =>
    d ← objects w !! defaultOptions w;
    o ← objects w !! l;
    Some (l, set_objects (insert l (fill d o)) w)
  end.

(** ** The failure policy *)

Definition Outcome : Type := option (Settled E (option T) * World).

(** [await fail(lastError)] *)
Definition call_fail (h : ErrorHandler) (lastError : E) (w : World)
  : Settled E HandlerResult * World :=
  let '(r, u) := h lastError (closure w) in
  (r, set_closure u (emit (FailHandler lastError) w)).

Section Round.

(** The recursive calls of [eventually]. *)
Variable self : EventualFunction -> option loc -> World -> Outcome.

Definition handleComplexEventualFailResult (options : loc)
    (originalFunction : EventualFunction) (lastError : E) (w : World) : Outcome :=
  o ← objects w !! options;
  match redirect o with
  | Some redirect =>
    '(options, w) ← omit options w;
    self (fun u => redirect lastError u) (Some options) w
  | None => self originalFunction (Some options) w
  end.

Definition handleSimpleEventuallyResult (strategy : Z) (func : EventualFunction)
    (options : loc) (lastError : E) (w : World) : Outcome :=
  if strategy =? strategy_value strategy_fail then Some (Rejected lastError, w)
  else if strategy =? strategy_value strategy_retry then self func (Some options) w
  else if strategy =? strategy_value strategy_halt then Some (Pending, w)
  else if strategy =? strategy_value strategy_suppress then Some (Fulfilled None, w)
  else Some (Rejected (unhandledStrategy strategy lastError), w).

(** What [eventually] does once [tryDo] has thrown [lastError]. *)
Definition onExhausted (func : EventualFunction) (options : loc) (lastError : E)
    (w : World) : Outcome :=
  o ← objects w !! options;
  match redirect o with
  | Some redirect =>
    '(options, w) ← omit options w;
    self (fun u => redirect lastError u) (Some options) w
  | None =>
    match fail o with
    | None => Some (Rejected lastError, w)
    | Some fail =>
      let '(handlerResult, w) := call_fail fail lastError w in
      match handlerResult with
      | Fulfilled (HObject h) => handleComplexEventualFailResult h func lastError w
      | Fulfilled (HStrategy s) => handleSimpleEventuallyResult s func options lastError w
      | Rejected e => Some (Rejected e, w)
      | Pending => Some (Pending, w)
      end
    end
  end.

Definition eventually_body (func : EventualFunction) (options : option loc) (w : World)
  : Outcome :=
  '(options, w) ← resolveOptions options w;
  o ← objects w !! options;
  let retries := num_or (retries o) (defaultRetries w) in
  let backoff := backoff_or (backoff o) (defaultBackoff w) in
  let '(backoff, w) := ensureArray backoff w in
  '(r, w) ← tryDo func retries backoff w;
  match r with
  | Fulfilled v => Some (Fulfilled (Some v), w)
  | Pending => Some (Pending, w)
  | Rejected lastError => onExhausted func options lastError w
  end.

End Round.

(** [eventually(func, options)], with a budget of rounds. *)
Fixpoint eventually (rounds : nat) (func : EventualFunction) (options : option loc)
    (w : World) : Outcome :=
  match rounds with
  | O => None
  | S rounds => eventually_body (eventually rounds) func options w
  end.

End Eventually.

Arguments Options : clear implicits.
Arguments World : clear implicits.

(** ** Vocabulary of the statements *)

Section Vocabulary.

Context {U T E : Type}.
Implicit Types (w : World U T E) (func : @EventualFunction U T E).

(** The module's variables are the same in both worlds. *)
Definition same_module w w' : Prop :=
  defaultRetries w' = defaultRetries w /\
  defaultFailHandler w' = defaultFailHandler w /\
  defaultBackoff w' = defaultBackoff w /\
  defaultOptions w' = defaultOptions w.

Definition error_of func (u : U) : option E :=
  match (func u).1 with Rejected e => Some e | _ => None end.

Definition always_fails func : Prop := forall u, is_Some (error_of func u).

(** The closures' state after one more invocation. *)
Definition step func (u : U) : U := (func u).2.

(** The delays of the next [k] retries when the private copy holds [ds]:
    [backoff.shift() || fallbackBackoff], [k] times. *)
Fixpoint delays (fallbackBackoff : Z) (ds : list Z) (k : nat) : list Z :=
  match k with
  | O => []
  | S k => num_or (head ds) fallbackBackoff :: delays fallbackBackoff (tail ds) k
  end.

(** A retry: the delay, then the attempt. *)
Definition retry_events (ds : list Z) : list (Event E) :=
  flat_map (fun d => [Sleep d; Attempt]) ds.

(** How often the operation was invoked, and the delays that were awaited. *)
Fixpoint attempts_in (tr : list (Event E)) : nat :=
  match tr with
  | [] => 0
  | Attempt :: tr => S (attempts_in tr)
  | _ :: tr => attempts_in tr
  end.

Fixpoint sleeps_in (tr : list (Event E)) : list Z :=
  match tr with
  | [] => []
  | Sleep ms :: tr => ms :: sleeps_in tr
  | _ :: tr => sleeps_in tr
  end.

(** The delays as the documentation words them: [d0, d1, ..., dn], then
    [dn] again and again, or 0 when the sequence is empty. *)
Definition documented_delay (ds : list Z) (i : nat) : Z :=
  default (default 0 (last ds)) (ds !! i).

Definition documented_delays (ds : list Z) (k : nat) : list Z :=
  map (documented_delay ds) (seq 0 k).

(** Nothing but the array at [b], the closures and the trace has changed. *)
Definition loop_frame (b : loc) w w' : Prop :=
  objects w' = objects w /\ same_module w w' /\
  (forall a, a <> b -> arrays w' !! a = arrays w !! a).

(** [e] is what the last invocation of [func] rejected with: the last thing
    that happened in [w] is an attempt, made in the closures' state [u]. *)
Definition last_attempt_error func (e : E) w : Prop :=
  exists u tr,
    error_of func u = Some e /\ closure w = step func u /\ trace w = tr ++ [Attempt].

(** The first half of a round of [eventually], up to the end of the [try]
    block: the location and the contents of the resolved options, and the
    way [tryDo] settled. *)
Definition round func (options : option loc) w
  : option (loc * Options U T E * Settled E T * World U T E) :=
  '(options, w) ← resolveOptions options w;
  o ← objects w !! options;
  let retries := num_or (retries o) (defaultRetries w) in
  let backoff := backoff_or (backoff o) (defaultBackoff w) in
  let '(backoff, w) := ensureArray backoff w in
  '(r, w) ← tryDo func retries backoff w;
  Some (options, o, r, w).

(** From [w] to [w']: the module's variables are the same, every array of
    [w] is unchanged, and every object of [w] is unchanged or has had its
    undefined default keys filled from [d]. *)
Definition engine_frame (d : Options U T E) w w' : Prop :=
  same_module w w' /\
  (forall a xs, arrays w !! a = Some xs -> arrays w' !! a = Some xs) /\
  (forall l c, objects w !! l = Some c ->
     objects w' !! l = Some c \/ objects w' !! l = Some (fill d c)).

(** The world once the handler has been awaited. *)
Definition after_handler (e : E) (u : U) w : World U T E :=
  set_closure u (emit (FailHandler e) w).

(** What a caller of [tryDo] can see of a run: how it settled, the
    closures' state and the trace. *)
Definition observable (run : option (Settled E T * World U T E))
  : option (Settled E T * U * list (Event E)) :=
  '(r, w) ← run; Some (r, closure w, trace w).

(** How often a [fail] handler was called. *)
Fixpoint handler_calls_in (tr : list (Event E)) : nat :=
  match tr with
  | [] => 0
  | FailHandler _ :: tr => S (handler_calls_in tr)
  | _ :: tr => handler_calls_in tr
  end.

(** The object [defaultOptions] and the array in it are as the module built
    them when it was loaded. *)
Definition loaded_defaults w : Prop :=
  exists a0,
    objects w !! defaultOptions w
      = Some (mkOptions (Some 0) (Some initialFailHandler) (Some (BArr a0)) None) /\
    arrays w !! a0 = Some [].

(** [options.retries || defaultRetries], on the resolved options. *)
Definition effective_retries (o : Options U T E) w : Z :=
  num_or (retries o) (defaultRetries w).

(** The object at [l] can be resolved in [w], and the array its back-off
    refers to, if it is one, is in the store. *)
Definition callable (l : loc) (c d : Options U T E) w : Prop :=
  objects w !! defaultOptions w = Some d /\
  objects w !! l = Some c /\
  forall a, backoff_or (backoff (fill d c)) (defaultBackoff w) = BArr a ->
            is_Some (arrays w !! a).

(** The entries of the back-off sequence a round runs with: those of the
    array [options.backoff || defaultBackoff] refers to, or the one entry
    of a scalar. *)
Definition backoff_entries (o : Options U T E) w : option (list Z) :=
  match backoff_or (backoff o) (defaultBackoff w) with
  | BNum v => Some [v]
  | BArr a => arrays w !! a
  end.

End Vocabulary.

(** ** Concrete runs *)

Module Scenario.

(** The closures hold one number. Results and errors are numbers too. *)
Definition W := World Z Z Z.

Definition unhandled (strategy e : Z) : Z := - strategy.

(** [() => Promise.reject(`Failing call ${++calls}`)] *)
Definition failing : @EventualFunction Z Z Z :=
  fun calls => (Rejected (calls + 1), calls + 1).

(** [() => Promise.reject(currentError)] *)
Definition rejecting_current : @EventualFunction Z Z Z :=
  fun currentError => (Rejected currentError, currentError).

(** The module, loaded; no call has been made. *)
Definition loaded : W := initial 0.

(** [async () => ErrorHandlingStrategies.suppress] and the like. *)
Definition resolves_to (s : ErrorHandlingStrategies) : @ErrorHandler Z Z :=
  fun _ u => (Fulfilled (HStrategy (strategy_value s)), u).

(** [{ retries, fail, backoff: [...] }] built by the caller in [w]: the
    array, then the object. *)
Definition with_backoff_array (retries : option Z) (fail : option (@ErrorHandler Z Z))
    (ds : list Z) (w : W) : loc * W :=
  let '(a, w) := alloc_array ds w in
  alloc_object (mkOptions retries fail (Some (BArr a)) None) w.

(** [eventually(failing, { retries: 3, backoff: [0, 100] })] *)
Definition zero_then_100 : loc * W := with_backoff_array (Some 3) None [0; 100] loaded.

(** [configureDefaults({ backoff: 50 })], then
    [eventually(failing, { retries: 2, backoff: 0 })] and
    [eventually(failing, { retries: 2, backoff: [0] })]. *)
Definition backoff_50 : option W :=
  let '(l, w) := alloc_object (mkOptions None None (Some (BNum 50)) None) loaded in
  configureDefaults l w.

(** [{ retries: 2, backoff: 0 }] and [{ retries: 2, backoff: [0] }] *)
Definition scalar_zero (w : W) : loc * W :=
  alloc_object (mkOptions (Some 2) None (Some (BNum 0)) None) w.

Definition array_of_zero (w : W) : loc * W := with_backoff_array (Some 2) None [0] w.

(** [{ retries: 1 }] *)
Definition retries_1 (w : W) : loc * W :=
  alloc_object (mkOptions (Some 1) None None None) w.

(** [configureDefaults({ retries: 2 })], then
    [eventually(failing, { retries: 0 })]. *)
Definition retries_2_configured : option W :=
  let '(l, w) := alloc_object (mkOptions (Some 2) None None None) loaded in
  configureDefaults l w.

(** [{ retries: 0 }] *)
Definition retries_0 (w : W) : loc * W :=
  alloc_object (mkOptions (Some 0) None None None) w.

(** Runs [eventually] and keeps what a caller can see: how the promise
    settled, the attempts made and the delays awaited. *)
Definition observe (run : @Outcome Z Z Z) : option (Settled Z (option Z) * nat * list Z) :=
  match run with
  | Some (r, w) => Some (r, attempts_in (trace w), sleeps_in (trace w))
  | None => None
  end.

(** [eventually(func, options)] in the world [start], once the caller has
    built [options] there. *)
Definition call_in (start : option W) (options : W -> loc * W)
    (func : @EventualFunction Z Z Z) (rounds : nat) : @Outcome Z Z Z :=
  match start with
  | Some w => let '(l, w) := options w in eventually unhandled rounds func (Some l) w
  | None => None
  end.

(** [eventually(failing, {})] after
    [configureDefaults({ retries: 2, fail: async () => suppress, backoff: [50] })]. *)
Definition all_configured : option W :=
  let '(l, w) :=
    with_backoff_array (Some 2) (Some (resolves_to strategy_suppress)) [50] loaded in
  configureDefaults l w.

(** [{}] *)
Definition empty_options (w : W) : loc * W :=
  alloc_object (mkOptions None None None None) w.

(** [{ retries: 1, redirect: e => e + 100 }] *)
Definition fallback : @Redirect Z Z Z := fun e u => (Fulfilled (e + 100), u).

Definition redirecting : loc * W :=
  alloc_object (mkOptions (Some 1) None None (Some fallback)) loaded.

(** [{ retries: 0, fail: async () => fail }], in a world where
    [currentError] is 1. *)
Definition second_options : loc * W :=
  alloc_object (mkOptions (Some 0) (Some (resolves_to strategy_fail)) None None) (initial 1).

(** The handler sets [currentError] to 2 and resolves to the object above. *)
Definition swap_error : @ErrorHandler Z Z :=
  fun _ _ => (Fulfilled (HObject second_options.1), 2).

(** [{ retries: 2, fail: swap_error }] *)
Definition first_options : loc * W :=
  alloc_object (mkOptions (Some 2) (Some swap_error) None None) second_options.2.

(** [{ retries: 1, fail: async () => halt }] *)
Definition halting : loc * W :=
  alloc_object (mkOptions (Some 1) (Some (resolves_to strategy_halt)) None None) loaded.

(** [{ fail: async e => { throw e + 1000 } }] *)
Definition throwing_handler : @ErrorHandler Z Z := fun e u => (Rejected (e + 1000), u).

Definition handler_throws : loc * W :=
  alloc_object (mkOptions None (Some throwing_handler) None None) loaded.

(** An array for [tryDo] alone. *)
Definition ten_twenty : loc * W := alloc_array [10; 20] loaded.

(** Rejected twice, then fulfilled with 42. *)
Definition flaky : @EventualFunction Z Z Z :=
  fun calls => (if calls <? 2 then Rejected (calls + 1) else Fulfilled 42, calls + 1).

(** Rejected once, then never settles. *)
Definition hanging : @EventualFunction Z Z Z :=
  fun calls => (if calls <? 1 then Rejected (calls + 1) else Pending, calls + 1).

(** [{ retries: 3 }] *)
Definition retries_3 : loc * W :=
  alloc_object (mkOptions (Some 3) None None None) loaded.

(** [{ retries: 1, fail: async () => suppress }] *)
Definition suppressing : loc * W :=
  alloc_object (mkOptions (Some 1) (Some (resolves_to strategy_suppress)) None None) loaded.

(** [{ fail: async () => 7 }] *)
Definition resolves_to_7 : @ErrorHandler Z Z := fun _ u => (Fulfilled (HStrategy 7), u).

Definition unknown_strategy : loc * W :=
  alloc_object (mkOptions None (Some resolves_to_7) None None) loaded.

(** [{ retries: 0, fail: async () => retry }] *)
Definition retrying : loc * W :=
  alloc_object (mkOptions (Some 0) (Some (resolves_to strategy_retry)) None None) loaded.

(** [{ retries: 0, fail: async () => ({ retries: 0, redirect: fallback,
    fail: async () => fail }) }] *)
Definition redirect_options : loc * W :=
  alloc_object
    (mkOptions (Some 0) (Some (resolves_to strategy_fail)) None (Some fallback)) loaded.

Definition to_redirect_options : @ErrorHandler Z Z :=
  fun _ u => (Fulfilled (HObject redirect_options.1), u).

Definition asks_handler : loc * W :=
  alloc_object (mkOptions (Some 0) (Some to_redirect_options) None None) redirect_options.2.

(** Arrays for [tryDo] alone. *)
Definition fifty : loc * W := alloc_array [50] loaded.

Definition zero_hundred : loc * W := alloc_array [0; 100] loaded.

(** The argument of [configureDefaults({ backoff: 50 })]. *)
Definition backoff_50_options : loc * W :=
  alloc_object (mkOptions None None (Some (BNum 50)) None) loaded.

(** [{ retries: 1, backoff: [10, 20], redirect: async e => { throw e + 1000 } }] *)
Definition failing_redirect : @Redirect Z Z Z := fun e u => (Rejected (e + 1000), u).

Definition redirecting_in_vain : loc * W :=
  let '(a, w) := alloc_array [10; 20] loaded in
  alloc_object (mkOptions (Some 1) None (Some (BArr a)) (Some failing_redirect)) w.

End Scenario.

(** ** Properties of the retry engine *)

Section EngineProperties.

Context {U T E : Type}.
Implicit Types (w : World U T E) (func : @EventualFunction U T E).

Lemma same_module_refl w : same_module w w.
Proof. by repeat split. Qed.

Lemma same_module_trans w1 w2 w3 :
  same_module w1 w2 -> same_module w2 w3 -> same_module w1 w3.
Proof. unfold same_module. intuition congruence. Qed.

Lemma loop_frame_refl b w : loop_frame b w w.
Proof. split; [done|]. split; [apply same_module_refl|done]. Qed.

Lemma loop_frame_trans b w1 w2 w3 :
  loop_frame b w1 w2 -> loop_frame b w2 w3 -> loop_frame b w1 w3.
Proof.
  intros (Ho & Hm & Ha) (Ho' & Hm' & Ha'). split; [congruence|]. split.
  - eapply same_module_trans; eassumption.
  - intros a Hne. rewrite Ha', Ha; auto.
Qed.

Lemma shift_inv b w x w' :
  shift b w = Some (x, w') ->
  exists ds, arrays w !! b = Some ds /\ x = head ds /\
    arrays w' !! b = Some (tail ds) /\ loop_frame b w w' /\
    closure w' = closure w /\ trace w' = trace w.
Proof.
  unfold shift. destruct (arrays w !! b) as [ds|] eqn:Hb; [|done].
  destruct ds as [|d ds]; intros [= <- <-]; simpl.
  - exists []. by repeat split.
  - exists (d :: ds). repeat split; simpl; try done.
    + by rewrite lookup_insert_eq.
    + intros a Ha. by rewrite lookup_insert_ne.
Qed.

Lemma call_frame b func w : loop_frame b w (call func w).2.
Proof. unfold call. destruct (func _). simpl. by repeat split. Qed.

Lemma sleep_frame b ms w : loop_frame b w (sleep ms w).
Proof. by repeat split. Qed.

Lemma tryDo_loop_frame func retries b fb n : forall attempts w r w',
  tryDo_loop n func retries b fb attempts w = Some (r, w') -> loop_frame b w w'.
Proof.
  induction n as [|n IH]; intros attempts w r w'; simpl; [done|].
  destruct (if 0 <? attempts then _ else _) as [w1|] eqn:Hpre; simpl; [|done].
  assert (loop_frame b w w1) as H1.
  { destruct (0 <? attempts).
    - destruct (shift b w) as [[x w0]|] eqn:Hs; simpl in Hpre; [|done].
      injection Hpre as <-.
      apply shift_inv in Hs as (ds & _ & _ & _ & Hf & _).
      eapply loop_frame_trans; [exact Hf|apply sleep_frame].
    - injection Hpre as <-. apply loop_frame_refl. }
  pose proof (call_frame b func w1) as H2.
  destruct (call func w1) as [res w2]. simpl in H2.
  assert (loop_frame b w w2) as H12 by (eapply loop_frame_trans; eassumption).
  destruct res as [v|e|]; try (by intros [= <- <-]).
  destruct (attempts <? retries); [|by intros [= <- <-]].
  intros H. apply IH in H. eapply loop_frame_trans; eassumption.
Qed.

Lemma slice_inv a w b w' :
  slice a w = Some (b, w') ->
  exists xs, arrays w !! a = Some xs /\ arrays w !! b = None /\
    w' = set_arrays (insert b xs) w.
Proof.
  unfold slice, alloc_array. intros H.
  apply bind_Some in H as (xs & Ha & [= <- <-]).
  exists xs. repeat split; [done|].
  apply not_elem_of_dom, is_fresh.
Qed.

Lemma tryDo_frame func retries a w r w' :
  tryDo func retries a w = Some (r, w') ->
  objects w' = objects w /\ same_module w w' /\
  (forall a xs, arrays w !! a = Some xs -> arrays w' !! a = Some xs).
Proof.
  unfold tryDo. intros H.
  apply bind_Some in H as ([b w1] & Hs & H).
  apply bind_Some in H as (xs' & _ & H).
  apply slice_inv in Hs as (xs & Ha & Hb & ->).
  apply tryDo_loop_frame in H as (Ho & Hm & Hf).
  split; [done|]. split; [done|].
  intros a' ds Ha'. rewrite Hf by congruence.
  simpl. rewrite lookup_insert_ne; [done|congruence].
Qed.

Lemma shift_Some b w ds :
  arrays w !! b = Some ds ->
  exists w', shift b w = Some (head ds, w') /\
    arrays w' !! b = Some (tail ds) /\
    closure w' = closure w /\ trace w' = trace w.
Proof.
  unfold shift. intros Hb. rewrite Hb. destruct ds as [|d ds]; simpl.
  - by exists w.
  - eexists. split; [done|]. simpl. by rewrite lookup_insert_eq.
Qed.

(** One retry of an operation that fails: the delay, the attempt, and the
    loop's test. *)
Lemma retry_failing func retries b fb n attempts w ds :
  always_fails func -> 0 < attempts -> arrays w !! b = Some ds ->
  exists e w',
    error_of func (closure w) = Some e /\
    closure w' = step func (closure w) /\
    trace w' = trace w ++ [Sleep (num_or (head ds) fb); Attempt] /\
    arrays w' !! b = Some (tail ds) /\
    tryDo_loop (S n) func retries b fb attempts w =
      if attempts <? retries
      then tryDo_loop n func retries b fb (attempts + 1) w'
      else Some (Rejected e, w').
Proof.
  intros Hfail Hpos Hds.
  destruct (shift_Some b w ds Hds) as (w1 & Hs & Hb & Hc & Ht).
  destruct (Hfail (closure w)) as [e He]. unfold error_of in He.
  destruct (func (closure w)) as [res u] eqn:Hcall. simpl in He.
  destruct res as [v|e'|]; try done. injection He as ->.
  exists e, (set_closure u (emit Attempt (sleep (num_or (head ds) fb) w1))).
  split; [unfold error_of; by rewrite Hcall|].
  split; [unfold step; by rewrite Hcall|].
  split; [simpl; rewrite Ht; by rewrite <- app_assoc|].
  split; [done|].
  cbn [tryDo_loop]. replace (0 <? attempts) with true by (symmetry; apply Z.ltb_lt; lia).
  rewrite Hs. cbn [mbind option_bind]. unfold call. cbn [closure sleep emit].
  rewrite Hc, Hcall. done.
Qed.

Lemma tryDo_loop_failing func retries b fb :
  always_fails func ->
  forall k n attempts w ds,
    0 < attempts -> retries = attempts + Z.of_nat k -> (k < n)%nat ->
    arrays w !! b = Some ds ->
    exists e w',
      tryDo_loop n func retries b fb attempts w = Some (Rejected e, w') /\
      trace w' = trace w ++ retry_events (delays fb ds (S k)) /\
      closure w' = Nat.iter (S k) (step func) (closure w) /\
      error_of func (Nat.iter k (step func) (closure w)) = Some e.
Proof.
  intros Hfail. induction k as [|k IH]; intros n attempts w ds Hpos Hr Hn Hds.
  all: destruct n as [|n]; [lia|].
  all: destruct (retry_failing func retries b fb n attempts w ds Hfail Hpos Hds)
         as (e & w1 & He & Hc & Ht & Hb & ->).
  - replace (attempts <? retries) with false by (symmetry; apply Z.ltb_ge; lia).
    by exists e, w1.
  - replace (attempts <? retries) with true by (symmetry; apply Z.ltb_lt; lia).
    destruct (IH n (attempts + 1) w1 (tail ds)) as (e1 & w' & Hrun & Htr & Hcl & Herr);
      [lia|lia|lia|done|].
    exists e1, w'. split; [done|]. rewrite Htr, Ht, Hcl, <- Herr, Hc.
    repeat split.
    + unfold retry_events. simpl. by rewrite <- app_assoc.
    + by rewrite <- !Nat.iter_succ_r.
    + by rewrite <- Nat.iter_succ_r.
Qed.

(** The whole of [tryDo] on an operation that always fails: the first
    attempt, then one retry per unit of [retries]. *)
Lemma tryDo_failing func retries a w xs :
  always_fails func -> 0 <= retries -> arrays w !! a = Some xs ->
  exists e w',
    tryDo func retries a w = Some (Rejected e, w') /\
    trace w' = trace w ++
      Attempt :: retry_events (delays (num_or (last xs) 0) xs (Z.to_nat retries)) /\
    closure w' = Nat.iter (S (Z.to_nat retries)) (step func) (closure w) /\
    error_of func (Nat.iter (Z.to_nat retries) (step func) (closure w)) = Some e.
Proof.
  intros Hfail Hr Ha. unfold tryDo, slice, alloc_array. rewrite Ha.
  cbn [mbind option_bind]. set (b := fresh (dom (arrays w))).
  cbn [arrays set_arrays]. rewrite lookup_insert_eq. cbn [mbind option_bind].
  set (w0 := set_arrays _ w). set (fb := num_or (last xs) 0).
  assert (arrays w0 !! b = Some xs) as Hb by apply lookup_insert_eq.
  destruct (Hfail (closure w)) as [e He]. unfold error_of in He.
  destruct (func (closure w)) as [res u] eqn:Hcall. simpl in He.
  destruct res as [v|e'|]; try done. injection He as ->.
  assert (forall n, tryDo_loop (S n) func retries b fb 0 w0 =
            if 0 <? retries
            then tryDo_loop n func retries b fb (0 + 1) (set_closure u (emit Attempt w0))
            else Some (Rejected e, set_closure u (emit Attempt w0))) as Hfirst.
  { intros n. cbn [tryDo_loop]. replace (0 <? 0) with false by done.
    cbn [mbind option_bind]. unfold call.
    change (closure w0) with (closure w). by rewrite Hcall. }
  rewrite Hfirst.
  destruct (Z.to_nat retries) as [|k] eqn:Hk.
  - replace (0 <? retries) with false by (symmetry; apply Z.ltb_ge; lia).
    eexists _, _. split; [done|]. simpl. repeat split.
    + unfold step. by rewrite Hcall.
    + unfold error_of. by rewrite Hcall.
  - replace (0 <? retries) with true by (symmetry; apply Z.ltb_lt; lia).
    destruct (tryDo_loop_failing func retries b fb Hfail k (S k) (0 + 1)
                (set_closure u (emit Attempt w0)) xs)
      as (e1 & w' & Hrun & Htr & Hcl & Herr); [lia|lia|lia|done|].
    assert (u = step func (closure w)) as Hu by (unfold step; by rewrite Hcall).
    exists e1, w'. split; [done|]. rewrite Htr, Hcl, <- Herr.
    change (closure (set_closure u (emit Attempt w0))) with u.
    change (trace (set_closure u (emit Attempt w0))) with (trace w ++ [Attempt]).
    rewrite Hu. repeat split.
    + by rewrite <- app_assoc.
    + by rewrite <- !Nat.iter_succ_r.
    + by rewrite <- Nat.iter_succ_r.
Qed.

Lemma tryDo_loop_rejected func retries b fb n : forall attempts w e w',
  tryDo_loop n func retries b fb attempts w = Some (Rejected e, w') ->
  last_attempt_error func e w'.
Proof.
  induction n as [|n IH]; intros attempts w e w'; simpl; [done|].
  destruct (if 0 <? attempts then _ else _) as [w1|]; simpl; [|done].
  unfold call. destruct (func (closure w1)) as [res u] eqn:Hcall.
  destruct res as [v|e1|]; try done.
  destruct (attempts <? retries); [by apply IH|].
  intros [= <- <-]. exists (closure w1), (trace w1).
  unfold error_of, step. by rewrite Hcall.
Qed.

Lemma tryDo_rejected func retries a w e w' :
  tryDo func retries a w = Some (Rejected e, w') -> last_attempt_error func e w'.
Proof.
  unfold tryDo. intros H.
  apply bind_Some in H as ([b w1] & _ & H).
  apply bind_Some in H as (xs & _ & H).
  by eapply tryDo_loop_rejected.
Qed.

Lemma length_delays fb ds k : length (delays fb ds k) = k.
Proof. revert ds. induction k as [|k IH]; intros ds; simpl; [done|]. by rewrite IH. Qed.

Lemma attempts_in_app (tr1 tr2 : list (Event E)) :
  attempts_in (tr1 ++ tr2) = (attempts_in tr1 + attempts_in tr2)%nat.
Proof.
  induction tr1 as [|ev tr1 IH]; simpl; [done|].
  destruct ev; simpl; by rewrite IH.
Qed.

Lemma attempts_in_retry_events ds : attempts_in (retry_events (E:=E) ds) = length ds.
Proof. induction ds as [|d ds IH]; simpl; [done|]. by rewrite IH. Qed.

Lemma sleeps_in_app (tr1 tr2 : list (Event E)) :
  sleeps_in (tr1 ++ tr2) = sleeps_in tr1 ++ sleeps_in tr2.
Proof.
  induction tr1 as [|ev tr1 IH]; simpl; [done|].
  destruct ev; simpl; by rewrite IH.
Qed.

Lemma sleeps_in_retry_events ds : sleeps_in (retry_events (E:=E) ds) = ds.
Proof. induction ds as [|d ds IH]; simpl; [done|]. by rewrite IH. Qed.

(** The [i]-th delay is the [i]-th entry of the sequence, unless that entry
    is missing or 0: then it is the fallback. *)
Lemma delays_lookup fb ds k :
  delays fb ds k = map (fun i => num_or (ds !! i) fb) (seq 0 k).
Proof.
  revert ds. induction k as [|k IH]; intros ds; [done|].
  cbn [delays seq map]. rewrite IH, <- seq_shift, map_map.
  f_equal; [by destruct ds|].
  apply map_ext. intros i. by destruct ds.
Qed.

Lemma num_or_last (ds : list Z) : num_or (last ds) 0 = default 0 (last ds).
Proof. destruct (last ds) as [d|]; simpl; [|done]. destruct (Z.eqb_spec d 0); congruence. Qed.

(** On a sequence without a 0 the delays are the documented ones. *)
Lemma delays_documented ds k :
  Forall (fun d => d <> 0) ds ->
  delays (num_or (last ds) 0) ds k = documented_delays ds k.
Proof.
  intros Hnz. rewrite delays_lookup, num_or_last. unfold documented_delays.
  apply map_ext. intros i. unfold documented_delay.
  destruct (ds !! i) as [d|] eqn:Hi; simpl; [|done].
  destruct (Z.eqb_spec d 0) as [->|]; [|done].
  rewrite Forall_forall in Hnz. exfalso. apply (Hnz 0); [|done].
  apply list_elem_of_lookup. eauto.
Qed.

(** The bound on the iterations that [tryDo] starts the loop with is never
    reached: the engine always settles. *)
Lemma tryDo_loop_total func retries b fb n : forall attempts w,
  (Z.to_nat (retries - attempts) < n)%nat ->
  is_Some (arrays w !! b) ->
  is_Some (tryDo_loop n func retries b fb attempts w).
Proof.
  induction n as [|n IH]; intros attempts w Hn [ds Hds]; [lia|]. cbn [tryDo_loop].
  assert (exists w1, (if 0 <? attempts
                      then '(x, w) ← shift b w; Some (sleep (num_or x fb) w)
                      else Some w) = Some w1 /\ is_Some (arrays w1 !! b))
    as (w1 & -> & Hb1).
  { destruct (0 <? attempts); [|by eauto].
    destruct (shift_Some b w ds Hds) as (w0 & -> & Hb & _). simpl. eauto. }
  cbn [mbind option_bind]. unfold call.
  destruct (func (closure w1)) as [res u]. destruct res as [v|e|]; try done.
  destruct (Z.ltb_spec attempts retries); [|done].
  apply IH; [lia|done].
Qed.

Lemma tryDo_total func retries a w :
  is_Some (arrays w !! a) -> is_Some (tryDo func retries a w).
Proof.
  intros [xs Ha]. unfold tryDo, slice, alloc_array. rewrite Ha.
  cbn [mbind option_bind arrays set_arrays]. rewrite lookup_insert_eq.
  cbn [mbind option_bind]. apply tryDo_loop_total; [lia|].
  simpl. rewrite lookup_insert_eq. eauto.
Qed.

(** On a sequence without a 0, the delays awaited between the attempts of an
    operation that always fails are the documented ones. *)
Lemma tryDo_sleeps_documented func retries a w xs :
  always_fails func -> 0 <= retries -> arrays w !! a = Some xs ->
  Forall (fun d => d <> 0) xs ->
  exists e w',
    tryDo func retries a w = Some (Rejected e, w') /\
    sleeps_in (trace w') = sleeps_in (trace w) ++ documented_delays xs (Z.to_nat retries).
Proof.
  intros Hfail Hr Ha Hnz.
  destruct (tryDo_failing func retries a w xs Hfail Hr Ha) as (e & w' & Hrun & Htr & _).
  exists e, w'. split; [done|].
  rewrite Htr, sleeps_in_app. cbn [sleeps_in].
  by rewrite sleeps_in_retry_events, delays_documented.
Qed.

(** The retry engine alone. For every [retries] value [r >= 0] handed to it and
    an operation that fails on every invocation, the engine invokes the
    operation exactly [r + 1] times and then fails (throws) with the error
    of the last of these invocations, the one made after [r] earlier ones. *)
Theorem tryDo_always_failing func (r : Z) (a : loc) w xs :
  0 <= r ->
  arrays w !! a = Some xs ->
  always_fails func ->
  exists e w',
    tryDo func r a w = Some (Rejected e, w') /\
    Z.of_nat (attempts_in (trace w')) = Z.of_nat (attempts_in (trace w)) + (r + 1) /\
    closure w' = Nat.iter (Z.to_nat (r + 1)) (step func) (closure w) /\
    error_of func (Nat.iter (Z.to_nat r) (step func) (closure w)) = Some e.
Proof.
  intros Hr Ha Hfail.
  destruct (tryDo_failing func r a w xs Hfail Hr Ha) as (e & w' & Hrun & Htr & Hcl & Herr).
  exists e, w'. split; [done|]. split; [|split; [|done]].
  - rewrite Htr, attempts_in_app. cbn [attempts_in].
    rewrite attempts_in_retry_events, length_delays. lia.
  - rewrite Hcl. f_equal. lia.
Qed.

End EngineProperties.

(** ** Properties of the failure policy *)

Section PolicyProperties.

Context {U T E : Type}.
Variable unhandledStrategy : Z -> E -> E.
Implicit Types (w : World U T E) (func : @EventualFunction U T E)
  (o c d : Options U T E).

Lemma eventually_round n func options w l o r w' :
  round func options w = Some (l, o, r, w') ->
  eventually unhandledStrategy (S n) func options w =
    match r with
    | Fulfilled v => Some (Fulfilled (Some v), w')
    | Pending => Some (Pending, w')
    | Rejected lastError =>
      onExhausted unhandledStrategy (eventually unhandledStrategy n) func l lastError w'
    end.
Proof.
  unfold round. cbn [eventually]. unfold eventually_body.
  destruct (resolveOptions options w) as [[l1 w1]|]; [|done]. cbn [mbind option_bind].
  destruct (objects w1 !! l1) as [o1|]; [|done]. cbn [mbind option_bind].
  destruct (ensureArray _ w1) as [a w2].
  destruct (tryDo _ _ a w2) as [[r1 w3]|]; [|done]. cbn [mbind option_bind].
  by intros [= <- <- <- <-].
Qed.

Lemma ensureArray_frame (b : Backoff) w a w' :
  ensureArray b w = (a, w') ->
  objects w' = objects w /\ same_module w w' /\
  closure w' = closure w /\ trace w' = trace w /\
  (forall a xs, arrays w !! a = Some xs -> arrays w' !! a = Some xs).
Proof.
  destruct b as [v|a0]; simpl; intros [= <- <-]; [|by repeat split].
  repeat split; simpl. intros a xs Ha.
  rewrite lookup_insert_ne; [done|]. intros <-.
  apply (is_fresh (dom (arrays w))). apply elem_of_dom. eauto.
Qed.

Lemma round_objects func options w l o r w' :
  round func options w = Some (l, o, r, w') -> objects w' !! l = Some o.
Proof.
  unfold round. intros H.
  apply bind_Some in H as ([l1 w1] & _ & H).
  apply bind_Some in H as (o1 & Ho & H).
  destruct (ensureArray _ w1) as [a w2] eqn:He.
  apply bind_Some in H as ([r1 w3] & Ht & [= <- <- <- <-]).
  apply ensureArray_frame in He as (He & _). apply tryDo_frame in Ht as (Ht & _).
  congruence.
Qed.

(** *** What a call leaves of the store *)

Lemma fill_idem d c : fill d (fill d c) = fill d c.
Proof.
  destruct c as [r f b rd]. unfold fill. simpl.
  f_equal; [destruct r | destruct f | destruct b]; simpl; try done.
  - by destruct (retries d).
  - by destruct (fail d).
  - by destruct (backoff d).
Qed.

Lemma fill_self d : fill d d = d.
Proof. destruct d as [[r|] [f|] [b|] rd]; done. Qed.

Lemma fill_omit_redirect d c : fill d (omit_redirect c) = omit_redirect (fill d c).
Proof. done. Qed.

Lemma engine_frame_refl d w : engine_frame d w w.
Proof. split; [apply same_module_refl|]. split; [done|]. intros l c Hl. by left. Qed.

Lemma engine_frame_trans d w1 w2 w3 :
  engine_frame d w1 w2 -> engine_frame d w2 w3 -> engine_frame d w1 w3.
Proof.
  intros (Hm & Ha & Ho) (Hm' & Ha' & Ho'). split; [|split].
  - eapply same_module_trans; eassumption.
  - intros a xs Hx. auto.
  - intros l c Hl. destruct (Ho l c Hl) as [H|H]; destruct (Ho' _ _ H) as [H'|H'].
    + by left.
    + by right.
    + by right.
    + right. by rewrite fill_idem in H'.
Qed.

(** Steps that leave objects, arrays and module variables alone. *)
Lemma engine_frame_store d w w' :
  objects w' = objects w -> same_module w w' ->
  (forall a xs, arrays w !! a = Some xs -> arrays w' !! a = Some xs) ->
  engine_frame d w w'.
Proof. intros Ho Hm Ha. split; [done|]. split; [done|]. intros l c Hl. left. congruence. Qed.

Lemma engine_frame_defaultOptions d w w' :
  engine_frame d w w' ->
  objects w !! defaultOptions w = Some d ->
  objects w' !! defaultOptions w' = Some d.
Proof.
  intros ((_ & _ & _ & Hd) & _ & Ho) H. rewrite Hd.
  destruct (Ho _ _ H) as [H'|H']; [done|]. by rewrite fill_self in H'.
Qed.

Lemma resolveOptions_inv options w l w' :
  resolveOptions options w = Some (l, w') ->
  match options with
  | None => l = defaultOptions w /\ w' = w
  | Some l0 =>
    l = l0 /\ exists d c,
      objects w !! defaultOptions w = Some d /\ objects w !! l0 = Some c /\
      w' = set_objects (insert l0 (fill d c)) w
  end.
Proof.
  destruct options as [l0|]; simpl; [|by intros [= <- <-]].
  intros H. apply bind_Some in H as (d & Hd & H).
  apply bind_Some in H as (c & Hc & [= <- <-]). eauto 6.
Qed.

Lemma resolveOptions_frame d options w l w' :
  objects w !! defaultOptions w = Some d ->
  resolveOptions options w = Some (l, w') ->
  engine_frame d w w'.
Proof.
  intros Hd H. apply resolveOptions_inv in H. destruct options as [l0|].
  - destruct H as (-> & d' & c & Hd' & Hc & ->).
    assert (d' = d) as -> by congruence.
    split; [by repeat split|]. split; [done|].
    intros l1 c1 Hl1. simpl. destruct (decide (l1 = l0)) as [->|Hne].
    + right. rewrite lookup_insert_eq. congruence.
    + left. by rewrite lookup_insert_ne.
  - destruct H as [-> ->]. apply engine_frame_refl.
Qed.

Lemma omit_inv l w l' w' :
  omit l w = Some (l', w') ->
  exists c, objects w !! l = Some c /\ objects w !! l' = None /\
    w' = set_objects (insert l' (omit_redirect c)) w.
Proof.
  unfold omit, alloc_object. intros H.
  apply bind_Some in H as (c & Hc & [= <- <-]).
  exists c. repeat split; [done|]. apply not_elem_of_dom, is_fresh.
Qed.

Lemma omit_frame d l w l' w' : omit l w = Some (l', w') -> engine_frame d w w'.
Proof.
  intros H. apply omit_inv in H as (c & _ & Hfresh & ->).
  split; [by repeat split|]. split; [done|].
  intros l1 c1 Hl1. left. simpl. rewrite lookup_insert_ne; [done|]. congruence.
Qed.

Lemma call_fail_frame d (h : @ErrorHandler U E) e w :
  engine_frame d w (call_fail h e w).2.
Proof.
  unfold call_fail. destruct (h e (closure w)) as [r u]. simpl.
  by apply engine_frame_store.
Qed.

Lemma round_inv func options w l o r w' :
  round func options w = Some (l, o, r, w') ->
  exists w1 a w2,
    resolveOptions options w = Some (l, w1) /\
    objects w1 !! l = Some o /\
    ensureArray (backoff_or (backoff o) (defaultBackoff w1)) w1 = (a, w2) /\
    tryDo func (num_or (retries o) (defaultRetries w1)) a w2 = Some (r, w').
Proof.
  unfold round. intros H.
  apply bind_Some in H as ([l1 w1] & Hr & H).
  apply bind_Some in H as (o1 & Ho & H).
  destruct (ensureArray _ w1) as [a w2] eqn:He.
  apply bind_Some in H as ([r1 w3] & Ht & [= <- <- <- <-]).
  by exists w1, a, w2.
Qed.

Lemma round_frame d func options w l o r w' :
  objects w !! defaultOptions w = Some d ->
  round func options w = Some (l, o, r, w') ->
  engine_frame d w w'.
Proof.
  intros Hd H. apply round_inv in H as (w1 & a & w2 & Hr & _ & He & Ht).
  apply (resolveOptions_frame d) in Hr; [|done].
  apply ensureArray_frame in He as (Ho2 & Hm2 & _ & _ & Ha2).
  apply tryDo_frame in Ht as (Ho3 & Hm3 & Ha3).
  eapply engine_frame_trans; [exact Hr|].
  eapply engine_frame_trans; by apply engine_frame_store.
Qed.

(** The options a round runs under are filled: resolving them again changes
    nothing. *)
Lemma round_filled d func options w l o r w' :
  objects w !! defaultOptions w = Some d ->
  round func options w = Some (l, o, r, w') ->
  fill d o = o.
Proof.
  intros Hd H. apply round_inv in H as (w1 & a & w2 & Hr & Ho & _).
  apply resolveOptions_inv in Hr. destruct options as [l0|].
  - destruct Hr as (-> & d' & c & Hd' & Hc & ->). simpl in Ho.
    rewrite lookup_insert_eq in Ho. injection Ho as <-.
    assert (d' = d) as -> by congruence. apply fill_idem.
  - destruct Hr as [-> ->]. assert (o = d) as -> by congruence. apply fill_self.
Qed.

(** A round on a given object runs under that object, filled. *)
Lemma round_Some func l0 w l o r w' c d :
  objects w !! defaultOptions w = Some d ->
  objects w !! l0 = Some c ->
  round func (Some l0) w = Some (l, o, r, w') ->
  l = l0 /\ o = fill d c.
Proof.
  intros Hd Hc H. apply round_inv in H as (w1 & a & w2 & Hr & Ho & _).
  apply resolveOptions_inv in Hr as (-> & d' & c' & Hd' & Hc' & ->).
  simpl in Ho. rewrite lookup_insert_eq in Ho. split; [done|]. congruence.
Qed.

Lemma eventually_inv n func options w res :
  eventually unhandledStrategy (S n) func options w = Some res ->
  exists l o r w1, round func options w = Some (l, o, r, w1).
Proof.
  cbn [eventually]. unfold eventually_body, round.
  destruct (resolveOptions options w) as [[l1 w1]|]; [|done]. cbn [mbind option_bind].
  destruct (objects w1 !! l1) as [o1|]; [|done]. cbn [mbind option_bind].
  destruct (ensureArray _ w1) as [a w2].
  destruct (tryDo _ _ a w2) as [[r1 w3]|]; [|done]. cbn [mbind option_bind].
  eauto.
Qed.

(** More rounds do not change a result. *)
Lemma eventually_body_mono
    (self self' : @EventualFunction U T E -> option loc -> World U T E -> @Outcome U T E) :
  (forall func options w res, self func options w = Some res ->
                              self' func options w = Some res) ->
  forall func options w res,
    eventually_body unhandledStrategy self func options w = Some res ->
    eventually_body unhandledStrategy self' func options w = Some res.
Proof.
  intros Hself func options w res. unfold eventually_body.
  destruct (resolveOptions options w) as [[l1 w1]|]; [|done]. cbn [mbind option_bind].
  destruct (objects w1 !! l1) as [o1|]; [|done]. cbn [mbind option_bind].
  destruct (ensureArray _ w1) as [a w2].
  destruct (tryDo _ _ a w2) as [[r1 w3]|]; [|done]. cbn [mbind option_bind].
  destruct r1 as [v|e|]; try done.
  unfold onExhausted, handleComplexEventualFailResult, handleSimpleEventuallyResult.
  destruct (objects w3 !! l1) as [o|]; [|done]. cbn [mbind option_bind].
  destruct (redirect o) as [rd|].
  { destruct (omit l1 w3) as [[l2 w4]|]; [|done]. apply Hself. }
  destruct (fail o) as [h|]; [|done].
  destruct (call_fail h e w3) as [hr w4].
  destruct hr as [[s|hl]|e'|]; try done.
  - repeat case_match; try done. apply Hself.
  - destruct (objects w4 !! hl) as [ho|]; [|done]. cbn [mbind option_bind].
    destruct (redirect ho) as [rd|]; [|apply Hself].
    destruct (omit hl w4) as [[l2 w5]|]; [|done]. apply Hself.
Qed.

Lemma eventually_mono n m : (n <= m)%nat ->
  forall func options w res,
    eventually unhandledStrategy n func options w = Some res ->
    eventually unhandledStrategy m func options w = Some res.
Proof.
  revert m. induction n as [|n IH]; intros m Hnm func options w res; [done|].
  destruct m as [|m]; [lia|]. cbn [eventually].
  apply eventually_body_mono. apply IH. lia.
Qed.

Section Frame.

Variable d : Options U T E.
Variable self : @EventualFunction U T E -> option loc -> World U T E -> @Outcome U T E.
Hypothesis self_frame : forall func options w r w',
  objects w !! defaultOptions w = Some d ->
  self func options w = Some (r, w') -> engine_frame d w w'.

Lemma redirect_frame (rd : @Redirect U T E) l e w l1 w1 r w' :
  objects w !! defaultOptions w = Some d ->
  omit l w = Some (l1, w1) ->
  self (fun u => rd e u) (Some l1) w1 = Some (r, w') ->
  engine_frame d w w'.
Proof.
  intros Hd Hom H. apply (omit_frame d) in Hom.
  eapply engine_frame_trans; [exact Hom|].
  eapply self_frame; [|exact H]. by eapply engine_frame_defaultOptions.
Qed.

Lemma handleComplexEventualFailResult_frame options func e w r w' :
  objects w !! defaultOptions w = Some d ->
  handleComplexEventualFailResult self options func e w = Some (r, w') ->
  engine_frame d w w'.
Proof.
  intros Hd H. unfold handleComplexEventualFailResult in H.
  apply bind_Some in H as (o & _ & H).
  destruct (redirect o) as [rd|]; [|by eapply self_frame].
  apply bind_Some in H as ([l1 w1] & Hom & H). by eapply redirect_frame.
Qed.

Lemma handleSimpleEventuallyResult_frame s func options e w r w' :
  objects w !! defaultOptions w = Some d ->
  handleSimpleEventuallyResult unhandledStrategy self s func options e w = Some (r, w') ->
  engine_frame d w w'.
Proof.
  intros Hd. unfold handleSimpleEventuallyResult.
  repeat case_match; try (intros [= <- <-]; apply engine_frame_refl).
  by apply self_frame.
Qed.

Lemma onExhausted_frame func l e w r w' :
  objects w !! defaultOptions w = Some d ->
  onExhausted unhandledStrategy self func l e w = Some (r, w') ->
  engine_frame d w w'.
Proof.
  intros Hd H. unfold onExhausted in H.
  apply bind_Some in H as (o & _ & H).
  destruct (redirect o) as [rd|].
  { apply bind_Some in H as ([l1 w1] & Hom & H). by eapply redirect_frame. }
  destruct (fail o) as [h|]; [|injection H as <- <-; apply engine_frame_refl].
  pose proof (call_fail_frame d h e w) as Hh.
  destruct (call_fail h e w) as [hr w1]. simpl in Hh.
  assert (objects w1 !! defaultOptions w1 = Some d) as Hd1
    by (by eapply engine_frame_defaultOptions).
  eapply engine_frame_trans; [exact Hh|].
  destruct hr as [[s|hl]|e'|].
  - by eapply handleSimpleEventuallyResult_frame.
  - by eapply handleComplexEventualFailResult_frame.
  - injection H as <- <-. apply engine_frame_refl.
  - injection H as <- <-. apply engine_frame_refl.
Qed.

End Frame.

(** A whole call, however many rounds it takes. *)
Lemma eventually_frame d n : forall func options w r w',
  objects w !! defaultOptions w = Some d ->
  eventually unhandledStrategy n func options w = Some (r, w') ->
  engine_frame d w w'.
Proof.
  induction n as [|n IH]; intros func options w r w' Hd H; [done|].
  destruct (eventually_inv _ _ _ _ _ H) as (l & o & r1 & w1 & Hround).
  rewrite (eventually_round _ _ _ _ _ _ _ _ Hround) in H.
  pose proof (round_frame d _ _ _ _ _ _ _ Hd Hround) as H1.
  destruct r1 as [v|e|]; try (injection H as <- <-; exact H1).
  eapply engine_frame_trans; [exact H1|].
  eapply (onExhausted_frame d _ IH); [|exact H].
  by eapply engine_frame_defaultOptions.
Qed.

Lemma round_defaultOptions func options w l o r w' :
  round func options w = Some (l, o, r, w') ->
  exists d, objects w !! defaultOptions w = Some d.
Proof.
  intros H. apply round_inv in H as (w1 & a & w2 & Hr & Ho & _).
  apply resolveOptions_inv in Hr. destruct options as [l0|].
  - destruct Hr as (_ & d & c & Hd & _). eauto.
  - destruct Hr as [-> ->]. eauto.
Qed.

Lemma round_rejected func options w l o e w' :
  round func options w = Some (l, o, Rejected e, w') -> last_attempt_error func e w'.
Proof.
  intros H. apply round_inv in H as (w1 & a & w2 & _ & _ & _ & Ht).
  by eapply tryDo_rejected.
Qed.

(** The three ways out of [onExhausted] before a handler's result is
    looked at. *)
Section OnExhausted.

Variable self : @EventualFunction U T E -> option loc -> World U T E -> @Outcome U T E.

Lemma onExhausted_redirect func l o e w rd :
  objects w !! l = Some o -> redirect o = Some rd ->
  onExhausted unhandledStrategy self func l e w =
    self (fun u => rd e u) (Some (fresh (dom (objects w))))
         (set_objects (insert (fresh (dom (objects w))) (omit_redirect o)) w).
Proof. intros Ho Hr. unfold onExhausted, omit. rewrite Ho. simpl. by rewrite Hr. Qed.

Lemma onExhausted_no_handler func l o e w :
  objects w !! l = Some o -> redirect o = None -> fail o = None ->
  onExhausted unhandledStrategy self func l e w = Some (Rejected e, w).
Proof. intros Ho Hr Hf. unfold onExhausted. rewrite Ho. simpl. by rewrite Hr, Hf. Qed.

Lemma onExhausted_handler func l o e w h :
  objects w !! l = Some o -> redirect o = None -> fail o = Some h ->
  onExhausted unhandledStrategy self func l e w =
    let '(handlerResult, w) := call_fail h e w in
    match handlerResult with
    | Fulfilled (HObject hl) => handleComplexEventualFailResult self hl func e w
    | Fulfilled (HStrategy s) =>
      handleSimpleEventuallyResult unhandledStrategy self s func l e w
    | Rejected e' => Some (Rejected e', w)
    | Pending => Some (Pending, w)
    end.
Proof. intros Ho Hr Hf. unfold onExhausted. rewrite Ho. simpl. by rewrite Hr, Hf. Qed.

End OnExhausted.

Lemma call_fail_eq (h : @ErrorHandler U E) e w hr u :
  h e (closure w) = (hr, u) -> call_fail h e w = (hr, after_handler e u w).
Proof. unfold call_fail. by intros ->. Qed.

Lemma round_fail_policy n func options w l o e w' :
  round func options w = Some (l, o, Rejected e, w') ->
  redirect o = None ->
  (fail o = None \/
   exists h, fail o = Some h /\
     (h e (closure w')).1 = Fulfilled (HStrategy (strategy_value strategy_fail))) ->
  exists w'', eventually unhandledStrategy (S n) func options w = Some (Rejected e, w'').
Proof.
  intros Hround Hrd Hpolicy.
  pose proof (round_objects _ _ _ _ _ _ _ Hround) as Ho.
  rewrite (eventually_round _ _ _ _ _ _ _ _ Hround).
  destruct Hpolicy as [Hf|(h & Hf & Hh)].
  - exists w'. by eapply onExhausted_no_handler.
  - destruct (h e (closure w')) as [hr u] eqn:Hcall. simpl in Hh. subst hr.
    exists (after_handler e u w').
    rewrite (onExhausted_handler _ _ _ _ _ _ _ Ho Hrd Hf).
    by rewrite (call_fail_eq _ _ _ _ _ Hcall).
Qed.

(** C7. When the retries are used up with last error [e], no [redirect] is
    in play, and either no [fail] handler is set or the handler resolves to
    the strategy [fail], the call rejects with [e] itself, which is the
    value the last attempt of the operation rejected with. *)
Theorem exhausted_rejects_with_last_error n func options w l o e w' :
  round func options w = Some (l, o, Rejected e, w') ->
  redirect o = None ->
  (fail o = None \/
   exists h, fail o = Some h /\
     (h e (closure w')).1 = Fulfilled (HStrategy (strategy_value strategy_fail))) ->
  last_attempt_error func e w' /\
  exists w'', eventually unhandledStrategy (S n) func options w = Some (Rejected e, w'').
Proof.
  intros Hround Hrd Hpolicy.
  split; [by eapply round_rejected|by eapply round_fail_policy].
Qed.

(** C6. When the [fail] handler, called after the retries are used up,
    resolves to an options object without [redirect], the call is a fresh
    call of [eventually] on the original operation under that object. In
    particular, when the operation still fails in that second round, with
    last error [e2], and the object's own [fail] handler resolves to the
    strategy [fail], the call rejects with [e2], the second round's last
    error. *)
Theorem handler_options_reenter n func options w l o e1 w1 h hl u ho :
  round func options w = Some (l, o, Rejected e1, w1) ->
  redirect o = None ->
  fail o = Some h ->
  h e1 (closure w1) = (Fulfilled (HObject hl), u) ->
  objects w1 !! hl = Some ho ->
  redirect ho = None ->
  eventually unhandledStrategy (S n) func options w =
    eventually unhandledStrategy n func (Some hl) (after_handler e1 u w1) /\
  forall e2 w3 o2 h2,
    round func (Some hl) (after_handler e1 u w1) = Some (hl, o2, Rejected e2, w3) ->
    fail ho = Some h2 ->
    (h2 e2 (closure w3)).1 = Fulfilled (HStrategy (strategy_value strategy_fail)) ->
    last_attempt_error func e2 w3 /\
    exists w4,
      eventually unhandledStrategy (S (S n)) func options w = Some (Rejected e2, w4).
Proof.
  intros Hround Hrd Hf Hcall Hho Hrd2.
  pose proof (round_objects _ _ _ _ _ _ _ Hround) as Ho.
  assert (forall m, eventually unhandledStrategy (S m) func options w =
            eventually unhandledStrategy m func (Some hl) (after_handler e1 u w1)) as Hre.
  { intros m. rewrite (eventually_round _ _ _ _ _ _ _ _ Hround).
    rewrite (onExhausted_handler _ _ _ _ _ _ _ Ho Hrd Hf).
    rewrite (call_fail_eq _ _ _ _ _ Hcall).
    unfold handleComplexEventualFailResult.
    change (objects (after_handler e1 u w1)) with (objects w1).
    rewrite Hho. simpl. by rewrite Hrd2. }
  split; [apply Hre|].
  intros e2 w3 o2 h2 Hround2 Hf2 Hh2.
  split; [by eapply round_rejected|]. rewrite Hre.
  destruct (round_defaultOptions _ _ _ _ _ _ _ Hround2) as [d Hd].
  destruct (round_Some _ _ _ _ _ _ _ ho d Hd Hho Hround2) as [_ ->].
  eapply round_fail_policy; [exact Hround2|by simpl|].
  right. exists h2. split; [|done]. simpl. by rewrite Hf2.
Qed.

(** C8. When the [fail] handler, called after the retries are used up,
    resolves to the strategy [halt], the call returns the promise that
    never settles: it is neither fulfilled nor rejected. *)
Theorem halt_never_settles n func options w l o e w' h :
  round func options w = Some (l, o, Rejected e, w') ->
  redirect o = None ->
  fail o = Some h ->
  (h e (closure w')).1 = Fulfilled (HStrategy (strategy_value strategy_halt)) ->
  exists w'',
    eventually unhandledStrategy (S n) func options w = Some (Pending, w'') /\
    (forall v, eventually unhandledStrategy (S n) func options w <> Some (Fulfilled v, w'')) /\
    (forall e', eventually unhandledStrategy (S n) func options w <> Some (Rejected e', w'')).
Proof.
  intros Hround Hrd Hf Hh.
  pose proof (round_objects _ _ _ _ _ _ _ Hround) as Ho.
  rewrite (eventually_round _ _ _ _ _ _ _ _ Hround).
  destruct (h e (closure w')) as [hr u] eqn:Hcall. simpl in Hh. subst hr.
  exists (after_handler e u w').
  rewrite (onExhausted_handler _ _ _ _ _ _ _ Ho Hrd Hf).
  by rewrite (call_fail_eq _ _ _ _ _ Hcall).
Qed.

(** C10. When the [fail] handler, called after the retries are used up with
    last error [e], itself rejects with [eh], the call rejects with [eh]: the
    handler has been called once and nothing happens after it. *)
Theorem failing_handler_rejects_with_its_error n func options w l o e w' h eh u :
  round func options w = Some (l, o, Rejected e, w') ->
  redirect o = None ->
  fail o = Some h ->
  h e (closure w') = (Rejected eh, u) ->
  eventually unhandledStrategy (S n) func options w =
    Some (Rejected eh, after_handler e u w') /\
  trace (after_handler e u w') = trace w' ++ [FailHandler e].
Proof.
  intros Hround Hrd Hf Hcall.
  pose proof (round_objects _ _ _ _ _ _ _ Hround) as Ho.
  rewrite (eventually_round _ _ _ _ _ _ _ _ Hround).
  rewrite (onExhausted_handler _ _ _ _ _ _ _ Ho Hrd Hf).
  by rewrite (call_fail_eq _ _ _ _ _ Hcall).
Qed.

(** C9, as the code has it. A call leaves every array of the store as it
    was, the caller's back-off sequence among them: delays are shifted off
    a copy. The caller's options object is written to: once the call has
    returned, each of its keys [retries], [fail] and [backoff] that was
    undefined holds the value [defaultOptions] has for it; the keys the
    caller had defined, and [redirect], are as they were. *)
Theorem caller_options_filled_in_place n func l w r w' c d :
  objects w !! defaultOptions w = Some d ->
  objects w !! l = Some c ->
  eventually unhandledStrategy n func (Some l) w = Some (r, w') ->
  objects w' !! l = Some (fill d c) /\
  (forall a xs, arrays w !! a = Some xs -> arrays w' !! a = Some xs).
Proof.
  intros Hd Hc H. split.
  - destruct n as [|n]; [done|].
    destruct (eventually_inv _ _ _ _ _ H) as (l1 & o & r1 & w1 & Hround).
    rewrite (eventually_round _ _ _ _ _ _ _ _ Hround) in H.
    destruct (round_Some _ _ _ _ _ _ _ c d Hd Hc Hround) as [-> ->].
    pose proof (round_objects _ _ _ _ _ _ _ Hround) as Ho.
    destruct r1 as [v|e|]; try (injection H as <- <-; exact Ho).
    apply (onExhausted_frame d) in H.
    + destruct H as (_ & _ & Hobj). destruct (Hobj _ _ Ho) as [H'|H']; [done|].
      by rewrite fill_idem in H'.
    + apply eventually_frame.
    + eapply engine_frame_defaultOptions; [|exact Hd]. by eapply round_frame.
  - by destruct (eventually_frame d _ _ _ _ _ _ Hd H) as (_ & Ha & _).
Qed.

End PolicyProperties.

(** ** More on the retry engine *)

Section EngineShape.

Context {U T E : Type}.
Implicit Types (w : World U T E) (func : @EventualFunction U T E).

(** One turn of the loop: the delay (on a retry), the attempt, the test. *)
Lemma loop_step func retries b fb n attempts w ds :
  arrays w !! b = Some ds ->
  exists w1,
    closure w1 = step func (closure w) /\
    trace w1 = trace w ++
      (if 0 <? attempts then [Sleep (num_or (head ds) fb); Attempt] else [Attempt]) /\
    arrays w1 !! b = Some (if 0 <? attempts then tail ds else ds) /\
    tryDo_loop (S n) func retries b fb attempts w =
      match (func (closure w)).1 with
      | Rejected e =>
        if attempts <? retries
        then tryDo_loop n func retries b fb (attempts + 1) w1
        else Some (Rejected e, w1)
      | r => Some (r, w1)
      end.
Proof.
  intros Hds. cbn [tryDo_loop]. destruct (0 <? attempts).
  - destruct (shift_Some b w ds Hds) as (w0 & -> & Hb & Hc & Ht).
    cbn [mbind option_bind]. unfold call. cbn [closure sleep emit]. rewrite Hc.
    destruct (func (closure w)) as [res u] eqn:Hcall.
    exists (set_closure u (emit Attempt (sleep (num_or (head ds) fb) w0))).
    split; [unfold step; by rewrite Hcall|].
    split; [simpl; rewrite Ht; by rewrite <- app_assoc|].
    split; [done|]. by destruct res.
  - cbn [mbind option_bind]. unfold call.
    destruct (func (closure w)) as [res u] eqn:Hcall.
    exists (set_closure u (emit Attempt w)).
    split; [unfold step; by rewrite Hcall|].
    split; [done|]. split; [done|]. by destruct res.
Qed.

(** The retries the loop makes from a turn on. *)
Lemma tryDo_loop_shape func retries b fb n : forall attempts w ds res w',
  0 < attempts ->
  arrays w !! b = Some ds ->
  tryDo_loop n func retries b fb attempts w = Some (res, w') ->
  exists k,
    trace w' = trace w ++ retry_events (delays fb ds (S k)) /\
    closure w' = Nat.iter (S k) (step func) (closure w) /\
    res = (func (Nat.iter k (step func) (closure w))).1 /\
    (forall i, (i < k)%nat -> is_Some (error_of func (Nat.iter i (step func) (closure w)))) /\
    (k = 0%nat \/ attempts + Z.of_nat k <= retries) /\
    (forall e, res = Rejected e -> retries <= attempts + Z.of_nat k).
Proof.
  induction n as [|n IH]; intros attempts w ds res w' Hpos Hds; [done|].
  destruct (loop_step func retries b fb n attempts w ds Hds)
    as (w1 & Hc & Ht & Hb & ->).
  replace (0 <? attempts) with true in * by (symmetry; apply Z.ltb_lt; lia).
  assert (forall r, (func (closure w)).1 = r ->
            (forall e, r = Rejected e -> retries <= attempts) ->
            Some (r, w1) = Some (res, w') ->
            exists k,
              trace w' = trace w ++ retry_events (delays fb ds (S k)) /\
              closure w' = Nat.iter (S k) (step func) (closure w) /\
              res = (func (Nat.iter k (step func) (closure w))).1 /\
              (forall i, (i < k)%nat ->
                 is_Some (error_of func (Nat.iter i (step func) (closure w)))) /\
              (k = 0%nat \/ attempts + Z.of_nat k <= retries) /\
              (forall e, res = Rejected e -> retries <= attempts + Z.of_nat k)) as Hstop.
  { intros r Hr Hrej [= <- <-]. exists 0%nat. simpl. rewrite Ht.
    split; [done|]. split; [done|]. split; [done|].
    split; [intros i; lia|]. split; [by left|].
    intros e He. specialize (Hrej e He). lia. }
  destruct ((func (closure w)).1) as [v|e|] eqn:Hres.
  - apply (Hstop _ eq_refl). by intros.
  - destruct (Z.ltb_spec attempts retries) as [Hlt|Hge];
      [|apply (Hstop _ eq_refl); by intros].
    intros H. apply (IH _ _ (tail ds)) in H as (k & Htr & Hcl & Hr & Herr & Hk & Hrej);
      [|lia|done].
    exists (S k). rewrite Htr, Ht, Hcl, Hr, Hc.
    split; [unfold retry_events; simpl; by rewrite <- app_assoc|].
    split; [by rewrite <- !Nat.iter_succ_r|].
    split; [by rewrite <- Nat.iter_succ_r|].
    split; [|split].
    + intros [|i] Hi.
      * simpl. unfold error_of. rewrite Hres. eauto.
      * rewrite Nat.iter_succ_r, <- Hc. apply Herr. lia.
    + right. lia.
    + intros e' He'. rewrite <- Hc, <- Hr in He'. specialize (Hrej e' He'). lia.
  - apply (Hstop _ eq_refl). by intros.
Qed.

Lemma error_of_Rejected func (u : U) e :
  (func u).1 = Rejected e <-> error_of func u = Some e.
Proof.
  unfold error_of. destruct ((func u).1); split; intros H; try done; congruence.
Qed.

Lemma attempts_in_trace_shape (tr : list (Event E)) ds :
  attempts_in (tr ++ Attempt :: retry_events ds) = (attempts_in tr + S (length ds))%nat.
Proof. rewrite attempts_in_app. cbn [attempts_in]. by rewrite attempts_in_retry_events. Qed.

Lemma sleeps_in_trace_shape (tr : list (Event E)) ds :
  sleeps_in (tr ++ Attempt :: retry_events ds) = sleeps_in tr ++ ds.
Proof. rewrite sleeps_in_app. cbn [sleeps_in]. by rewrite sleeps_in_retry_events. Qed.

Lemma handler_calls_in_app (tr1 tr2 : list (Event E)) :
  handler_calls_in (tr1 ++ tr2) = (handler_calls_in tr1 + handler_calls_in tr2)%nat.
Proof.
  induction tr1 as [|ev tr1 IH]; simpl; [done|].
  destruct ev; simpl; by rewrite IH.
Qed.

Lemma handler_calls_in_trace_shape (tr : list (Event E)) ds :
  handler_calls_in (tr ++ Attempt :: retry_events ds) = handler_calls_in tr.
Proof.
  rewrite handler_calls_in_app. cbn [handler_calls_in].
  assert (handler_calls_in (retry_events (E:=E) ds) = 0%nat) as ->; [|lia].
  induction ds as [|d ds IH]; simpl; done.
Qed.

Lemma tryDo_runs func retries a w xs :
  arrays w !! a = Some xs ->
  exists res w' k,
    tryDo func retries a w = Some (res, w') /\
    trace w' = trace w ++
      Attempt :: retry_events (delays (num_or (last xs) 0) xs k) /\
    closure w' = Nat.iter (S k) (step func) (closure w) /\
    res = (func (Nat.iter k (step func) (closure w))).1 /\
    (forall i, (i < k)%nat ->
       is_Some (error_of func (Nat.iter i (step func) (closure w)))) /\
    (k <= Z.to_nat retries)%nat /\
    (forall e, res = Rejected e -> k = Z.to_nat retries).
Proof.
  intros Ha. unfold tryDo, slice, alloc_array. rewrite Ha.
  cbn [mbind option_bind]. set (b := fresh (dom (arrays w))).
  cbn [arrays set_arrays]. rewrite lookup_insert_eq. cbn [mbind option_bind].
  set (w0 := set_arrays _ w). set (fb := num_or (last xs) 0).
  assert (arrays w0 !! b = Some xs) as Hb by apply lookup_insert_eq.
  destruct (loop_step func retries b fb (Z.to_nat retries) 0 w0 xs Hb)
    as (w1 & Hc & Ht & Hb1 & ->).
  change (closure w0) with (closure w) in *. change (trace w0) with (trace w) in *.
  replace (0 <? 0) with false in * by done.
  assert (forall r, (func (closure w)).1 = r ->
            (forall e, r = Rejected e -> retries <= 0) ->
            exists res w' k,
              Some (r, w1) = Some (res, w') /\
              trace w' = trace w ++ Attempt :: retry_events (delays fb xs k) /\
              closure w' = Nat.iter (S k) (step func) (closure w) /\
              res = (func (Nat.iter k (step func) (closure w))).1 /\
              (forall i, (i < k)%nat ->
                 is_Some (error_of func (Nat.iter i (step func) (closure w)))) /\
              (k <= Z.to_nat retries)%nat /\
              (forall e, res = Rejected e -> k = Z.to_nat retries)) as Hstop.
  { intros r Hr Hrej. exists r, w1, 0%nat. split; [done|].
    split; [done|]. split; [done|]. split; [done|].
    split; [intros i; lia|]. split; [lia|].
    intros e He. specialize (Hrej e He). lia. }
  destruct ((func (closure w)).1) as [v|e|] eqn:Hres.
  - apply (Hstop _ eq_refl). by intros.
  - destruct (Z.ltb_spec 0 retries) as [Hlt|Hge];
      [|apply (Hstop _ eq_refl); by intros].
    destruct (tryDo_loop_total func retries b fb (Z.to_nat retries) (0 + 1) w1)
      as [[res w'] Hrun]; [lia|eauto|].
    destruct (tryDo_loop_shape func retries b fb (Z.to_nat retries) (0 + 1) w1 xs res w'
                ltac:(lia) Hb1 Hrun)
      as (k & Htr & Hcl & Hr & Herr & Hk & Hrej).
    exists res, w', (S k). split; [done|].
    rewrite Htr, Ht, Hcl, Hr, Hc.
    split; [unfold retry_events; simpl; by rewrite <- app_assoc|].
    split; [by rewrite <- !Nat.iter_succ_r|].
    split; [by rewrite <- Nat.iter_succ_r|].
    split; [|split].
    + intros [|i] Hi.
      * simpl. unfold error_of. rewrite Hres. eauto.
      * rewrite Nat.iter_succ_r, <- Hc. apply Herr. lia.
    + lia.
    + intros e' He'. rewrite <- Hc, <- Hr in He'. specialize (Hrej e' He'). lia.
  - apply (Hstop _ eq_refl). by intros.
Qed.

(** X1. On any operation, [tryDo] settles, as the last invocation of the
    operation did. It has made one attempt and then [k] retries, with [k]
    at most [retries]: every retry came after a rejected attempt and was
    preceded by its delay, taken in order from the sequence. It rejects
    only once all [retries] retries are made. *)
Theorem tryDo_shape func retries a w xs :
  arrays w !! a = Some xs ->
  exists res w' k,
    tryDo func retries a w = Some (res, w') /\
    trace w' = trace w ++
      Attempt :: retry_events (delays (num_or (last xs) 0) xs k) /\
    closure w' = Nat.iter (S k) (step func) (closure w) /\
    res = (func (Nat.iter k (step func) (closure w))).1 /\
    (forall i, (i < k)%nat ->
       is_Some (error_of func (Nat.iter i (step func) (closure w)))) /\
    (k <= Z.to_nat retries)%nat /\
    (forall e, res = Rejected e -> k = Z.to_nat retries).
Proof. apply tryDo_runs. Qed.

(** X2. An operation that is rejected [k] times and then fulfilled with
    [v], with [k] at most [retries]: [tryDo] fulfils with [v] after exactly
    [k + 1] attempts and [k] delays. *)
Theorem tryDo_succeeds_after func retries a w xs (k : nat) v :
  arrays w !! a = Some xs ->
  (forall i, (i < k)%nat -> is_Some (error_of func (Nat.iter i (step func) (closure w)))) ->
  (func (Nat.iter k (step func) (closure w))).1 = Fulfilled v ->
  (k <= Z.to_nat retries)%nat ->
  exists w',
    tryDo func retries a w = Some (Fulfilled v, w') /\
    attempts_in (trace w') = (attempts_in (trace w) + S k)%nat /\
    sleeps_in (trace w') = sleeps_in (trace w) ++ delays (num_or (last xs) 0) xs k /\
    closure w' = Nat.iter (S k) (step func) (closure w).
Proof.
  intros Ha Hfails Hok Hk.
  destruct (tryDo_runs func retries a w xs Ha)
    as (res & w' & k' & Hrun & Htr & Hcl & Hr & Herr & Hk' & Hrej).
  assert (k' = k) as ->.
  { destruct (Nat.lt_trichotomy k' k) as [Hlt|[Heq|Hgt]]; [|done|].
    - destruct (Hfails k' Hlt) as [e He]. apply error_of_Rejected in He.
      rewrite He in Hr. specialize (Hrej e Hr). lia.
    - destruct (Herr k Hgt) as [e He]. apply error_of_Rejected in He. congruence. }
  exists w'. rewrite Hrun, Hr, Hok, Htr, Hcl.
  rewrite attempts_in_trace_shape, sleeps_in_trace_shape, length_delays. done.
Qed.

(** X3. With [retries] 0 or negative the operation is invoked exactly once,
    no delay is awaited, and [tryDo] settles as that one invocation did. *)
Theorem tryDo_without_retries func retries a w xs :
  retries <= 0 ->
  arrays w !! a = Some xs ->
  exists w',
    tryDo func retries a w = Some ((func (closure w)).1, w') /\
    trace w' = trace w ++ [Attempt] /\
    closure w' = step func (closure w).
Proof.
  intros Hr Ha.
  destruct (tryDo_runs func retries a w xs Ha)
    as (res & w' & k & Hrun & Htr & Hcl & Hres & _ & Hk & _).
  assert (k = 0%nat) as -> by lia.
  exists w'. by rewrite Hrun, Hres, Htr, Hcl.
Qed.

(** X4. An operation that always fails, whatever [retries] is: the attempts
    are [max(retries, 0) + 1], and the [i]-th delay is the [i]-th entry of
    the sequence unless that entry is missing or 0; then it is the last
    entry of the sequence, or 0 if there is none or it is 0. *)
Theorem tryDo_delays_of_always_failing func retries a w xs :
  always_fails func ->
  arrays w !! a = Some xs ->
  exists e w',
    tryDo func retries a w = Some (Rejected e, w') /\
    attempts_in (trace w') = (attempts_in (trace w) + S (Z.to_nat retries))%nat /\
    sleeps_in (trace w') = sleeps_in (trace w) ++
      map (fun i => num_or (xs !! i) (num_or (last xs) 0)) (seq 0 (Z.to_nat retries)).
Proof.
  intros Hfail Ha.
  destruct (tryDo_runs func retries a w xs Ha)
    as (res & w' & k & Hrun & Htr & Hcl & Hres & _ & Hk & Hrej).
  destruct (Hfail (Nat.iter k (step func) (closure w))) as [e He].
  apply error_of_Rejected in He. rewrite He in Hres.
  rewrite (Hrej e Hres) in *. subst res.
  exists e, w'. split; [done|]. rewrite Htr.
  by rewrite attempts_in_trace_shape, sleeps_in_trace_shape, length_delays, delays_lookup.
Qed.

(** X5. On a sequence without a 0, and an operation that always fails,
    the delays awaited are the documented ones: the entries in order, then
    the last entry again and again (0 for an empty sequence). *)
Theorem tryDo_delays_without_zero func retries a w xs :
  always_fails func ->
  arrays w !! a = Some xs ->
  Forall (fun d => d <> 0) xs ->
  exists e w',
    tryDo func retries a w = Some (Rejected e, w') /\
    sleeps_in (trace w') =
      sleeps_in (trace w) ++ documented_delays xs (Z.to_nat retries).
Proof.
  intros Hfail Ha Hnz.
  destruct (tryDo_runs func retries a w xs Ha)
    as (res & w' & k & Hrun & Htr & Hcl & Hres & _ & Hk & Hrej).
  destruct (Hfail (Nat.iter k (step func) (closure w))) as [e He].
  apply error_of_Rejected in He. rewrite He in Hres.
  rewrite (Hrej e Hres) in *. subst res.
  exists e, w'. split; [done|].
  by rewrite Htr, sleeps_in_trace_shape, delays_documented.
Qed.

Lemma tryDo_loop_contents func retries fb n :
  forall attempts b1 b2 w1 w2 ds,
    closure w1 = closure w2 -> trace w1 = trace w2 ->
    arrays w1 !! b1 = Some ds -> arrays w2 !! b2 = Some ds ->
    observable (tryDo_loop n func retries b1 fb attempts w1) =
    observable (tryDo_loop n func retries b2 fb attempts w2).
Proof.
  induction n as [|n IH]; intros attempts b1 b2 w1 w2 ds Hc Ht H1 H2; [done|].
  destruct (loop_step func retries b1 fb n attempts w1 ds H1)
    as (w1' & Hc1 & Ht1 & Hb1 & ->).
  destruct (loop_step func retries b2 fb n attempts w2 ds H2)
    as (w2' & Hc2 & Ht2 & Hb2 & ->).
  assert (closure w1' = closure w2') as Hc' by congruence.
  assert (trace w1' = trace w2') as Ht' by congruence.
  rewrite Hc. destruct ((func (closure w2)).1) as [v|e|].
  - simpl. by rewrite Hc', Ht'.
  - destruct (attempts <? retries); [by eapply IH|].
    simpl. by rewrite Hc', Ht'.
  - simpl. by rewrite Hc', Ht'.
Qed.

(** [tryDo] reads the contents of the sequence it is given, no more: on two
    arrays with the same entries it makes the same attempts, awaits the
    same delays and settles the same way. *)
Lemma tryDo_contents func retries a1 a2 w1 w2 xs :
  closure w1 = closure w2 -> trace w1 = trace w2 ->
  arrays w1 !! a1 = Some xs -> arrays w2 !! a2 = Some xs ->
  observable (tryDo func retries a1 w1) = observable (tryDo func retries a2 w2).
Proof.
  intros Hc Ht H1 H2. unfold tryDo, slice, alloc_array. rewrite H1, H2.
  cbn [mbind option_bind arrays set_arrays]. rewrite !lookup_insert_eq.
  cbn [mbind option_bind]. eapply tryDo_loop_contents; try done.
  - simpl. apply lookup_insert_eq.
  - simpl. apply lookup_insert_eq.
Qed.

(** X6. A scalar back-off [d] other than 0 is the sequence [[d]]: what
    [eventually] hands to [tryDo] for [backoff: d] and for [backoff: [d]]
    makes [tryDo] behave the same. *)
Theorem scalar_backoff_as_singleton func retries (d : Z) (a dflt : loc) w :
  d <> 0 ->
  arrays w !! a = Some [d] ->
  observable (let '(b, w') := ensureArray (backoff_or (Some (BNum d)) dflt) w in
              tryDo func retries b w') =
  observable (let '(b, w') := ensureArray (backoff_or (Some (BArr a)) dflt) w in
              tryDo func retries b w').
Proof.
  intros Hd Ha. unfold backoff_or.
  destruct (Z.eqb_spec d 0) as [|_]; [done|].
  cbn [ensureArray alloc_array]. eapply tryDo_contents; try done.
  simpl. apply lookup_insert_eq.
Qed.

End EngineShape.

(** ** More on the failure policy *)

Section PolicyShape.

Context {U T E : Type}.
Variable unhandledStrategy : Z -> E -> E.
Implicit Types (w : World U T E) (func : @EventualFunction U T E)
  (o c d : Options U T E).

Lemma round_total func l w c d :
  callable l c d w ->
  exists res w', round func (Some l) w = Some (l, fill d c, res, w').
Proof.
  intros (Hd & Hc & Harr). unfold round, resolveOptions. rewrite Hd, Hc.
  cbn [mbind option_bind objects set_objects]. rewrite lookup_insert_eq.
  cbn [mbind option_bind defaultBackoff defaultRetries set_objects].
  destruct (backoff_or (backoff (fill d c)) (defaultBackoff w)) as [v|a] eqn:Hb.
  - cbn [ensureArray alloc_array].
    edestruct (tryDo_total func (num_or (retries (fill d c)) (defaultRetries w)))
      as [[res w'] Hrun]; [|rewrite Hrun; simpl; eauto].
    simpl. rewrite lookup_insert_eq. eauto.
  - cbn [ensureArray].
    edestruct (tryDo_total func (num_or (retries (fill d c)) (defaultRetries w)) a)
      as [[res w'] Hrun]; [|rewrite Hrun; simpl; eauto].
    simpl. by apply Harr.
Qed.

Lemma resolveOptions_closure options w l w1 :
  resolveOptions options w = Some (l, w1) ->
  closure w1 = closure w /\ trace w1 = trace w /\ same_module w w1 /\
  arrays w1 = arrays w.
Proof.
  intros H. apply resolveOptions_inv in H. destruct options as [l0|].
  - destruct H as (-> & d & c & _ & _ & ->). by repeat split.
  - destruct H as [-> ->]. by repeat split.
Qed.

(** What the first half of a round does with the operation. *)
Lemma round_shape func options w l o res w' :
  round func options w = Some (l, o, res, w') ->
  exists xs k,
    trace w' = trace w ++
      Attempt :: retry_events (delays (num_or (last xs) 0) xs k) /\
    closure w' = Nat.iter (S k) (step func) (closure w) /\
    res = (func (Nat.iter k (step func) (closure w))).1 /\
    (forall i, (i < k)%nat ->
       is_Some (error_of func (Nat.iter i (step func) (closure w)))) /\
    (k <= Z.to_nat (effective_retries o w))%nat /\
    (forall e, res = Rejected e -> k = Z.to_nat (effective_retries o w)).
Proof.
  intros H. apply round_inv in H as (w1 & a & w2 & Hr & Ho & He & Ht).
  apply resolveOptions_closure in Hr as (Hc1 & Ht1 & (Hdr & _) & _).
  apply ensureArray_frame in He as (_ & _ & Hc2 & Ht2 & _).
  assert (exists xs, arrays w2 !! a = Some xs) as [xs Ha].
  { unfold tryDo in Ht. apply bind_Some in Ht as ([b w3] & Hs & _).
    apply slice_inv in Hs as (xs & Hxs & _). eauto. }
  destruct (tryDo_runs func (num_or (retries o) (defaultRetries w1)) a w2 xs Ha)
    as (res' & w'' & k & Hrun & Htr & Hcl & Hres & Herr & Hk & Hrej).
  rewrite Ht in Hrun. injection Hrun as <- <-.
  exists xs, k. unfold effective_retries.
  rewrite <- Hdr, <- Hc1, <- Hc2, <- Ht1, <- Ht2. done.
Qed.

Lemma round_array func options w l o res w' :
  round func options w = Some (l, o, res, w') ->
  same_module w w' /\
  forall a, backoff_or (backoff o) (defaultBackoff w') = BArr a ->
            is_Some (arrays w' !! a).
Proof.
  intros H. apply round_inv in H as (w1 & a & w2 & Hr & Ho & He & Ht).
  apply resolveOptions_closure in Hr as (_ & _ & Hm1 & _).
  assert (is_Some (arrays w2 !! a)) as [xs Ha].
  { unfold tryDo in Ht. apply bind_Some in Ht as ([b w3] & Hs & _).
    apply slice_inv in Hs as (xs & Hxs & _). eauto. }
  pose proof He as He'.
  apply ensureArray_frame in He' as (_ & Hm2 & _).
  apply tryDo_frame in Ht as (_ & Hm3 & Harr).
  assert (same_module w1 w') as Hm by (eapply same_module_trans; eassumption).
  split; [by eapply same_module_trans|].
  intros a' Hb. destruct Hm as (_ & _ & Hdb & _). rewrite Hdb in Hb.
  rewrite Hb in He. injection He as <- <-. erewrite Harr; eauto.
Qed.

(** X7. When the [fail] handler, called after the retries are used up with
    last error [e], resolves to the strategy [suppress], the call fulfils
    with [undefined]; the handler has been called once. *)
Theorem suppress_resolves_undefined n func options w l o e w' h u :
  round func options w = Some (l, o, Rejected e, w') ->
  redirect o = None ->
  fail o = Some h ->
  h e (closure w') = (Fulfilled (HStrategy (strategy_value strategy_suppress)), u) ->
  eventually unhandledStrategy (S n) func options w =
    Some (Fulfilled None, after_handler e u w') /\
  handler_calls_in (trace (after_handler e u w')) = S (handler_calls_in (trace w)).
Proof.
  intros Hround Hrd Hf Hcall.
  pose proof (round_objects _ _ _ _ _ _ _ Hround) as Ho.
  rewrite (eventually_round unhandledStrategy _ _ _ _ _ _ _ _ Hround).
  rewrite (onExhausted_handler unhandledStrategy _ _ _ _ _ _ _ Ho Hrd Hf).
  rewrite (call_fail_eq _ _ _ _ _ Hcall). split; [done|].
  destruct (round_shape _ _ _ _ _ _ _ Hround) as (xs & k & Htr & _).
  simpl. rewrite Htr, handler_calls_in_app, handler_calls_in_trace_shape.
  simpl. lia.
Qed.

(** X8. When the handler resolves to a number that is none of the four
    strategies, the call rejects with the error the engine builds from that
    number and the last error ([new Error(...)]). Whenever that error is
    not the last error itself, as a newly built object is not, the call
    does not reject with the last error. *)
Theorem unknown_strategy_rejects n func options w l o e w' h u (s : Z) :
  round func options w = Some (l, o, Rejected e, w') ->
  redirect o = None ->
  fail o = Some h ->
  h e (closure w') = (Fulfilled (HStrategy s), u) ->
  (forall st, s <> strategy_value st) ->
  eventually unhandledStrategy (S n) func options w =
    Some (Rejected (unhandledStrategy s e), after_handler e u w') /\
  (unhandledStrategy s e <> e ->
   forall w'', eventually unhandledStrategy (S n) func options w
                 <> Some (Rejected e, w'')).
Proof.
  intros Hround Hrd Hf Hcall Hs.
  pose proof (round_objects _ _ _ _ _ _ _ Hround) as Ho.
  rewrite (eventually_round unhandledStrategy _ _ _ _ _ _ _ _ Hround).
  rewrite (onExhausted_handler unhandledStrategy _ _ _ _ _ _ _ Ho Hrd Hf).
  rewrite (call_fail_eq _ _ _ _ _ Hcall).
  unfold handleSimpleEventuallyResult.
  destruct (Z.eqb_spec s (strategy_value strategy_fail)) as [Heq|_];
    [by apply Hs in Heq|].
  destruct (Z.eqb_spec s (strategy_value strategy_retry)) as [Heq|_];
    [by apply Hs in Heq|].
  destruct (Z.eqb_spec s (strategy_value strategy_halt)) as [Heq|_];
    [by apply Hs in Heq|].
  destruct (Z.eqb_spec s (strategy_value strategy_suppress)) as [Heq|_];
    [by apply Hs in Heq|].
  split; [done|]. intros Hne w'' [= Heq]. done.
Qed.

Lemma round_succeeds_after func l w c d (k : nat) v :
  callable l c d w ->
  (forall i, (i < k)%nat -> is_Some (error_of func (Nat.iter i (step func) (closure w)))) ->
  (func (Nat.iter k (step func) (closure w))).1 = Fulfilled v ->
  (k <= Z.to_nat (effective_retries (fill d c) w))%nat ->
  exists w' xs,
    round func (Some l) w = Some (l, fill d c, Fulfilled v, w') /\
    trace w' = trace w ++
      Attempt :: retry_events (delays (num_or (last xs) 0) xs k) /\
    closure w' = Nat.iter (S k) (step func) (closure w).
Proof.
  intros Hcall Hfails Hok Hk.
  destruct (round_total func l w c d Hcall) as (res & w' & Hround).
  destruct (round_shape _ _ _ _ _ _ _ Hround)
    as (xs & k' & Htr & Hcl & Hr & Herr & Hk' & Hrej).
  assert (k' = k) as ->.
  { destruct (Nat.lt_trichotomy k' k) as [Hlt|[Heq|Hgt]]; [|done|].
    - destruct (Hfails k' Hlt) as [e He]. apply error_of_Rejected in He.
      rewrite He in Hr. specialize (Hrej e Hr). lia.
    - destruct (Herr k Hgt) as [e He]. apply error_of_Rejected in He. congruence. }
  exists w', xs. rewrite Hround, Hr, Hok. done.
Qed.

Lemma round_once func l w c d :
  callable l c d w ->
  effective_retries (fill d c) w <= 0 ->
  exists w',
    round func (Some l) w = Some (l, fill d c, (func (closure w)).1, w') /\
    trace w' = trace w ++ [Attempt] /\
    closure w' = step func (closure w).
Proof.
  intros Hcall Hr.
  destruct (round_total func l w c d Hcall) as (res & w' & Hround).
  destruct (round_shape _ _ _ _ _ _ _ Hround)
    as (xs & k & Htr & Hcl & Hres & _ & Hk & _).
  assert (k = 0%nat) as -> by lia.
  exists w'. by rewrite Hround, Hres, Htr, Hcl.
Qed.

(** After a round, the object the round ran under can be called again, and
    resolving it changes nothing. *)
Lemma round_callable func options w l o res w' d :
  objects w !! defaultOptions w = Some d ->
  round func options w = Some (l, o, res, w') ->
  callable l o d w' /\ fill d o = o.
Proof.
  intros Hd Hround.
  pose proof (round_filled d _ _ _ _ _ _ _ Hd Hround) as Hfill.
  split; [|done]. split; [|split].
  - eapply engine_frame_defaultOptions; [|exact Hd]. by eapply round_frame.
  - by eapply round_objects.
  - rewrite Hfill. by eapply round_array.
Qed.

(** X9. An operation that is rejected [k] times and then fulfilled with
    [v], called with options whose effective [retries] is at least [k]:
    the call fulfils with [v] in its first round, after [k + 1] attempts
    and [k] delays, and no [fail] handler is called. *)
Theorem eventually_succeeds_after n func l w c d (k : nat) v :
  callable l c d w ->
  (forall i, (i < k)%nat -> is_Some (error_of func (Nat.iter i (step func) (closure w)))) ->
  (func (Nat.iter k (step func) (closure w))).1 = Fulfilled v ->
  (k <= Z.to_nat (effective_retries (fill d c) w))%nat ->
  exists w',
    eventually unhandledStrategy (S n) func (Some l) w = Some (Fulfilled (Some v), w') /\
    attempts_in (trace w') = (attempts_in (trace w) + S k)%nat /\
    length (sleeps_in (trace w')) = (length (sleeps_in (trace w)) + k)%nat /\
    handler_calls_in (trace w') = handler_calls_in (trace w).
Proof.
  intros Hcall Hfails Hok Hk.
  destruct (round_succeeds_after func l w c d k v Hcall Hfails Hok Hk)
    as (w' & xs & Hround & Htr & _).
  exists w'. rewrite (eventually_round unhandledStrategy _ _ _ _ _ _ _ _ Hround).
  split; [done|]. rewrite Htr.
  rewrite attempts_in_trace_shape, sleeps_in_trace_shape, handler_calls_in_trace_shape.
  by rewrite length_app, !length_delays.
Qed.

Lemma retry_step n func options w l o e w' h u :
  round func options w = Some (l, o, Rejected e, w') ->
  redirect o = None ->
  fail o = Some h ->
  h e (closure w') = (Fulfilled (HStrategy (strategy_value strategy_retry)), u) ->
  eventually unhandledStrategy (S n) func options w =
    eventually unhandledStrategy n func (Some l) (after_handler e u w').
Proof.
  intros Hround Hrd Hf Hcall.
  pose proof (round_objects _ _ _ _ _ _ _ Hround) as Ho.
  rewrite (eventually_round unhandledStrategy _ _ _ _ _ _ _ _ Hround).
  rewrite (onExhausted_handler unhandledStrategy _ _ _ _ _ _ _ Ho Hrd Hf).
  by rewrite (call_fail_eq _ _ _ _ _ Hcall).
Qed.

(** X10. An operation that is rejected [k] times and then never settles,
    with the effective [retries] at least [k]: the call never settles,
    and no [fail] handler is called. *)
Theorem eventually_hangs_with_operation n func l w c d (k : nat) :
  callable l c d w ->
  (forall i, (i < k)%nat -> is_Some (error_of func (Nat.iter i (step func) (closure w)))) ->
  (func (Nat.iter k (step func) (closure w))).1 = Pending ->
  (k <= Z.to_nat (effective_retries (fill d c) w))%nat ->
  exists w',
    eventually unhandledStrategy (S n) func (Some l) w = Some (Pending, w') /\
    attempts_in (trace w') = (attempts_in (trace w) + S k)%nat /\
    handler_calls_in (trace w') = handler_calls_in (trace w).
Proof.
  intros Hcall Hfails Hpend Hk.
  destruct (round_total func l w c d Hcall) as (res & w' & Hround).
  destruct (round_shape _ _ _ _ _ _ _ Hround)
    as (xs & k' & Htr & Hcl & Hr & Herr & Hk' & Hrej).
  assert (k' = k) as ->.
  { destruct (Nat.lt_trichotomy k' k) as [Hlt|[Heq|Hgt]]; [|done|].
    - destruct (Hfails k' Hlt) as [e He]. apply error_of_Rejected in He.
      rewrite He in Hr. specialize (Hrej e Hr). lia.
    - destruct (Herr k Hgt) as [e He]. apply error_of_Rejected in He. congruence. }
  rewrite Hpend in Hr. subst res. exists w'.
  rewrite (eventually_round unhandledStrategy _ _ _ _ _ _ _ _ Hround).
  split; [done|]. rewrite Htr.
  by rewrite attempts_in_trace_shape, handler_calls_in_trace_shape, length_delays.
Qed.

(** X11. Effective [retries] 0 (or less) and a handler that always resolves
    to [retry]: an operation that is rejected [k] times and then fulfilled
    with [v] is invoked [k + 1] times, one round each, the handler is
    called [k] times, no delay is awaited, and the call fulfils with
    [v]. *)
Theorem retry_until_success n func l h (k : nat) v : forall w c d,
  callable l c d w ->
  redirect (fill d c) = None ->
  fail (fill d c) = Some h ->
  (forall e u, h e u = (Fulfilled (HStrategy (strategy_value strategy_retry)), u)) ->
  effective_retries (fill d c) w <= 0 ->
  (forall i, (i < k)%nat -> is_Some (error_of func (Nat.iter i (step func) (closure w)))) ->
  (func (Nat.iter k (step func) (closure w))).1 = Fulfilled v ->
  exists w',
    eventually unhandledStrategy (S k + n) func (Some l) w
      = Some (Fulfilled (Some v), w') /\
    attempts_in (trace w') = (attempts_in (trace w) + S k)%nat /\
    handler_calls_in (trace w') = (handler_calls_in (trace w) + k)%nat /\
    sleeps_in (trace w') = sleeps_in (trace w).
Proof.
  induction k as [|k IH]; intros w c d Hcall Hrd Hf Hh Hr Hfails Hok.
  - destruct (round_once func l w c d Hcall Hr) as (w' & Hround & Htr & _).
    simpl in Hok. rewrite Hok in Hround. exists w'.
    cbn [Nat.add].
    rewrite (eventually_round unhandledStrategy _ _ _ _ _ _ _ _ Hround).
    split; [done|]. rewrite Htr, attempts_in_app, handler_calls_in_app, sleeps_in_app.
    simpl. rewrite app_nil_r. split; [lia|]. split; [lia|done].
  - destruct (round_once func l w c d Hcall Hr) as (w1 & Hround & Htr & Hcl).
    destruct (Hfails 0%nat ltac:(lia)) as [e He]. simpl in He.
    apply error_of_Rejected in He. rewrite He in Hround.
    destruct Hcall as (Hd & Hc & Harr).
    destruct (round_callable _ _ _ _ _ _ _ d Hd Hround) as [Hcall1 Hfill].
    assert (same_module w w1) as Hm by (by eapply round_array).
    set (w2 := after_handler e (closure w1) w1).
    assert (callable l (fill d c) d w2) as Hcall2 by exact Hcall1.
    destruct (IH w2 (fill d c) d) as (w' & Hrun & Hat & Hhc & Hsl).
    + exact Hcall2.
    + by rewrite Hfill.
    + by rewrite Hfill.
    + exact Hh.
    + rewrite Hfill. unfold effective_retries in *.
      destruct Hm as (Hdr & _). change (defaultRetries w2) with (defaultRetries w1).
      by rewrite Hdr.
    + intros i Hi. change (closure w2) with (closure w1).
      rewrite Hcl, <- Nat.iter_succ_r. apply Hfails. lia.
    + change (closure w2) with (closure w1). by rewrite Hcl, <- Nat.iter_succ_r.
    + exists w'. split.
      * change (S (S k) + n)%nat with (S (S k + n)).
        rewrite (retry_step _ _ _ _ _ _ _ _ _ _ Hround Hrd Hf (Hh _ _)).
        exact Hrun.
      * rewrite Hat, Hhc, Hsl. subst w2. simpl.
        rewrite Htr, !attempts_in_app, !handler_calls_in_app, !sleeps_in_app.
        simpl. rewrite !app_nil_r. split; [lia|]. split; [lia|done].
Qed.

Lemma omit_callable l c d w l' w' :
  callable l c d w ->
  omit l w = Some (l', w') ->
  callable l' (omit_redirect c) d w' /\
  closure w' = closure w /\ trace w' = trace w /\ same_module w w' /\
  objects w' !! l = Some c.
Proof.
  intros (Hd & Hc & Harr) Hom.
  pose proof (omit_frame d _ _ _ _ Hom) as Hfr.
  apply omit_inv in Hom as (c' & Hc' & Hfresh & ->).
  assert (c' = c) as -> by congruence.
  split; [|split; [done|split; [done|split; [by repeat split|]]]].
  - split; [|split].
    + by eapply engine_frame_defaultOptions.
    + simpl. apply lookup_insert_eq.
    + intros a Ha. simpl. apply Harr. by rewrite fill_omit_redirect in Ha.
  - simpl. rewrite lookup_insert_ne; [done|]. congruence.
Qed.

(** The recursive call on [() => redirect(e)] when [redirect] fulfils. *)
Lemma redirect_fulfils n (rd : @Redirect U T E) e l c d w v u :
  callable l c d w ->
  rd e (closure w) = (Fulfilled v, u) ->
  exists w',
    eventually unhandledStrategy (S n) (fun u => rd e u) (Some l) w
      = Some (Fulfilled (Some v), w') /\
    closure w' = u /\
    trace w' = trace w ++ [Attempt].
Proof.
  intros Hcall Hrd.
  destruct (round_succeeds_after (fun u => rd e u) l w c d 0 v Hcall)
    as (w' & xs & Hround & Htr & Hcl).
  - intros i Hi. lia.
  - simpl. by rewrite Hrd.
  - lia.
  - exists w'. rewrite (eventually_round unhandledStrategy _ _ _ _ _ _ _ _ Hround).
    split; [done|]. split; [|done].
    rewrite Hcl. simpl. unfold step. by rewrite Hrd.
Qed.

(** X12. [redirect] on the options, the retries used up with last error
    [e], and [redirect(e)] fulfilled with [v]: the call fulfils with [v].
    [redirect] is invoked once, no delay is awaited for it and no [fail]
    handler is called. *)
Theorem redirect_value_returned n func options w l o e w' rd v u :
  round func options w = Some (l, o, Rejected e, w') ->
  redirect o = Some rd ->
  rd e (closure w') = (Fulfilled v, u) ->
  exists w'',
    eventually unhandledStrategy (S (S n)) func options w
      = Some (Fulfilled (Some v), w'') /\
    closure w'' = u /\
    trace w'' = trace w' ++ [Attempt].
Proof.
  intros Hround Hrd Hcall.
  destruct (round_defaultOptions _ _ _ _ _ _ _ Hround) as [d Hd].
  destruct (round_callable _ _ _ _ _ _ _ d Hd Hround) as [Hcallable Hfill].
  pose proof (round_objects _ _ _ _ _ _ _ Hround) as Ho.
  rewrite (eventually_round unhandledStrategy _ _ _ _ _ _ _ _ Hround).
  rewrite (onExhausted_redirect unhandledStrategy _ _ _ _ _ _ _ Ho Hrd).
  set (l' := fresh (dom (objects w'))).
  set (w2 := set_objects (insert l' (omit_redirect o)) w').
  assert (omit l w' = Some (l', w2)) as Hom by (unfold omit; by rewrite Ho).
  destruct (omit_callable _ _ _ _ _ _ Hcallable Hom) as (Hcall2 & Hc2 & Ht2 & _).
  destruct (redirect_fulfils n rd e l' _ d w2 v u Hcall2) as (w'' & Hrun & Hcl & Htr).
  - by rewrite Hc2.
  - exists w''. by rewrite Hrun, Hcl, Htr, Ht2.
Qed.

(** X13. The handler resolves to an options object that carries
    [redirect]: the call is a fresh call of [eventually] on
    [() => redirect(e)], with [e] the last error of the original operation,
    under a new object that holds the [retries], [fail] and [backoff] of
    the handler's object and no [redirect]. The handler's object itself is
    not written to and still carries its [redirect]. When [redirect(e)]
    fulfils with [v], the call fulfils with [v]. *)
Theorem handler_redirect_reenters n func options w l o e w1 h hl u ho rd d :
  round func options w = Some (l, o, Rejected e, w1) ->
  redirect o = None ->
  fail o = Some h ->
  h e (closure w1) = (Fulfilled (HObject hl), u) ->
  callable hl ho d w1 ->
  redirect ho = Some rd ->
  exists l' w2 o',
    omit hl (after_handler e u w1) = Some (l', w2) /\
    eventually unhandledStrategy (S n) func options w =
      eventually unhandledStrategy n (fun u => rd e u) (Some l') w2 /\
    objects w2 !! l' = Some o' /\
    redirect o' = None /\ retries o' = retries ho /\
    fail o' = fail ho /\ backoff o' = backoff ho /\
    objects w2 !! hl = Some ho /\
    forall v u',
      rd e u = (Fulfilled v, u') ->
      exists w3,
        eventually unhandledStrategy (S (S n)) func options w
          = Some (Fulfilled (Some v), w3) /\
        closure w3 = u'.
Proof.
  intros Hround Hrd Hf Hcall Hcallable Hrd2.
  pose proof (round_objects _ _ _ _ _ _ _ Hround) as Ho.
  assert (callable hl ho d (after_handler e u w1)) as Hcallable' by exact Hcallable.
  pose proof Hcallable as (_ & Hho & _).
  assert (objects (after_handler e u w1) !! hl = Some ho) as Hho' by exact Hho.
  set (l' := fresh (dom (objects (after_handler e u w1)))).
  set (w2 := set_objects (insert l' (omit_redirect ho)) (after_handler e u w1)).
  assert (omit hl (after_handler e u w1) = Some (l', w2)) as Hom
    by (unfold omit; by rewrite Hho').
  destruct (omit_callable _ _ _ _ _ _ Hcallable' Hom) as (Hcall2 & Hc2 & _ & _ & Hkeep).
  assert (forall m, eventually unhandledStrategy (S m) func options w =
            eventually unhandledStrategy m (fun u => rd e u) (Some l') w2) as Hre.
  { intros m. rewrite (eventually_round unhandledStrategy _ _ _ _ _ _ _ _ Hround).
    rewrite (onExhausted_handler unhandledStrategy _ _ _ _ _ _ _ Ho Hrd Hf).
    rewrite (call_fail_eq _ _ _ _ _ Hcall).
    unfold handleComplexEventualFailResult.
    rewrite Hho'. cbn [mbind option_bind]. rewrite Hrd2, Hom. done. }
  exists l', w2, (omit_redirect ho). split; [done|]. split; [apply Hre|].
  split; [simpl; apply lookup_insert_eq|].
  split; [done|]. split; [done|]. split; [done|]. split; [done|]. split; [done|].
  intros v u' Hv.
  destruct (redirect_fulfils n rd e l' _ d w2 v u' Hcall2) as (w3 & Hrun & Hcl & _).
  - by rewrite Hc2.
  - exists w3. by rewrite Hre, Hrun.
Qed.

(** X14. Resolving the options of an object a second time changes nothing:
    the world after the first [resolveOptions] is a fixed point. *)
Theorem resolveOptions_idempotent (l : loc) w l1 w1 :
  resolveOptions (Some l) w = Some (l1, w1) ->
  resolveOptions (Some l) w1 = Some (l, w1).
Proof.
  intros H. apply resolveOptions_inv in H as (-> & d & c & Hd & Hc & ->).
  unfold resolveOptions. cbn [objects defaultOptions set_objects].
  assert (<[l:=fill d c]> (objects w) !! defaultOptions w = Some d) as ->.
  { destruct (decide (defaultOptions w = l)) as [<-|Hne].
    - rewrite lookup_insert_eq. assert (c = d) as -> by congruence.
      by rewrite fill_self.
    - by rewrite lookup_insert_ne. }
  rewrite lookup_insert_eq. cbn [mbind option_bind].
  unfold set_objects. cbn. by rewrite fill_idem, insert_insert_eq.
Qed.

(** X15. [omit] builds a new object and leaves the one it is given as it
    was: the new object is at a location that was not in use, it has the
    [retries], [fail] and [backoff] of the given one and no [redirect];
    the given object, its [redirect] included, and every other object and
    array of the store are unchanged. *)
Theorem omit_copies (l : loc) w c :
  objects w !! l = Some c ->
  exists l' w' c',
    omit l w = Some (l', w') /\
    l' <> l /\ objects w !! l' = None /\
    objects w' !! l' = Some c' /\
    redirect c' = None /\ retries c' = retries c /\
    fail c' = fail c /\ backoff c' = backoff c /\
    objects w' !! l = Some c /\
    (forall l1 c1, objects w !! l1 = Some c1 -> objects w' !! l1 = Some c1) /\
    arrays w' = arrays w.
Proof.
  intros Hc. destruct (omit l w) as [[l' w']|] eqn:Hom.
  - apply omit_inv in Hom as (c0 & Hc0 & Hfresh & ->).
    assert (c0 = c) as -> by congruence.
    assert (forall l1 c1, objects w !! l1 = Some c1 ->
              <[l':=omit_redirect c]> (objects w) !! l1 = Some c1) as Hkeep.
    { intros l1 c1 H1. rewrite lookup_insert_ne; [done|]. congruence. }
    exists l', (set_objects (insert l' (omit_redirect c)) w), (omit_redirect c).
    split; [done|]. split; [congruence|]. split; [done|].
    split; [simpl; apply lookup_insert_eq|].
    split; [done|]. split; [done|]. split; [done|]. split; [done|].
    split; [by apply Hkeep|]. split; [exact Hkeep|done].
  - unfold omit in Hom. by rewrite Hc in Hom.
Qed.

Lemma configureDefaults_inv (opts : loc) w :
  match configureDefaults opts w with
  | Some w' =>
    exists o, objects w !! opts = Some o /\
      defaultRetries w' = default (defaultRetries w) (retries o) /\
      defaultFailHandler w' = default (defaultFailHandler w) (fail o) /\
      match backoff o with
      | None => defaultBackoff w' = defaultBackoff w
      | Some (BArr a) => defaultBackoff w' = a
      | Some (BNum v) =>
        arrays w !! defaultBackoff w' = None /\
        arrays w' !! defaultBackoff w' = Some [v]
      end /\
      objects w' = objects w /\
      defaultOptions w' = defaultOptions w /\
      (forall a xs, arrays w !! a = Some xs -> arrays w' !! a = Some xs) /\
      closure w' = closure w /\ trace w' = trace w
  | None => objects w !! opts = None
  end.
Proof.
  unfold configureDefaults. destruct (objects w !! opts) as [o|]; [|done].
  cbn [mbind option_bind]. exists o. split; [done|].
  destruct o as [[r|] [h|] [[v|a]|] rd]; cbn; repeat split; try done.
  all: try apply lookup_insert_eq.
  all: try (apply not_elem_of_dom, is_fresh).
  all: intros a' xs Ha; rewrite lookup_insert_ne; [done|]; intros <-.
  all: apply (is_fresh (dom (arrays w))); apply elem_of_dom; eauto.
Qed.

(** X16. [configureDefaults] sets the module's variables from the fields
    that are defined in its argument and leaves the others: a scalar
    back-off becomes a new one-entry array, an array is kept as the array
    it is. It writes to no object of the store, [defaultOptions] included,
    and to no array of the store. *)
Theorem configureDefaults_sets_variables (opts : loc) w o :
  objects w !! opts = Some o ->
  exists w',
    configureDefaults opts w = Some w' /\
    defaultRetries w' = default (defaultRetries w) (retries o) /\
    defaultFailHandler w' = default (defaultFailHandler w) (fail o) /\
    match backoff o with
    | None => defaultBackoff w' = defaultBackoff w
    | Some (BArr a) => defaultBackoff w' = a
    | Some (BNum v) =>
      arrays w !! defaultBackoff w' = None /\
      arrays w' !! defaultBackoff w' = Some [v]
    end /\
    objects w' = objects w /\
    defaultOptions w' = defaultOptions w /\
    (forall a xs, arrays w !! a = Some xs -> arrays w' !! a = Some xs) /\
    closure w' = closure w /\ trace w' = trace w.
Proof.
  intros Ho. pose proof (configureDefaults_inv opts w) as H.
  destruct (configureDefaults opts w) as [w'|]; [|congruence].
  destruct H as (o' & Ho' & H). assert (o' = o) as -> by congruence.
  by exists w'.
Qed.

Lemma configureDefaults_objects (opts : loc) w w' :
  configureDefaults opts w = Some w' ->
  objects w' = objects w /\ defaultOptions w' = defaultOptions w /\
  (forall a xs, arrays w !! a = Some xs -> arrays w' !! a = Some xs).
Proof.
  intros H. pose proof (configureDefaults_inv opts w) as Hc.
  rewrite H in Hc. destruct Hc as (o & _ & _ & _ & _ & Ho & Hd & Ha & _). done.
Qed.

(** X17. [configureDefaults] has no effect on [resolveOptions]: whatever
    is configured, an object is resolved to the same location and the
    store holds the same objects afterwards, filled with the same
    values. *)
Theorem configureDefaults_not_seen_by_resolveOptions (opts : loc) w w' options :
  configureDefaults opts w = Some w' ->
  (fun '(l, w1) => (l, objects w1)) <$> resolveOptions options w' =
  (fun '(l, w1) => (l, objects w1)) <$> resolveOptions options w.
Proof.
  intros H. apply configureDefaults_objects in H as (Ho & Hd & _).
  unfold resolveOptions. destruct options as [l|]; simpl; [|by rewrite Ho, Hd].
  rewrite Ho, Hd. destruct (objects w !! defaultOptions w) as [d|]; [|done].
  simpl. destruct (objects w !! l) as [c|]; [|done]. simpl. by rewrite Ho.
Qed.

Lemma initial_loaded_defaults (u : U) : loaded_defaults (initial (T:=T) (E:=E) u).
Proof. exists 1%positive. split; done. Qed.

(** X18. The object [defaultOptions] holds what the module was loaded with
    ([retries] 0, the handler that resolves to [fail], the empty array, no
    [redirect]) after [configureDefaults], whatever it is given. *)
Theorem configureDefaults_keeps_loaded_defaults (opts : loc) w w' :
  loaded_defaults w ->
  configureDefaults opts w = Some w' ->
  loaded_defaults w'.
Proof.
  intros (a0 & Hd & Ha) H. apply configureDefaults_objects in H as (Ho & Hdl & Harr).
  exists a0. rewrite Ho, Hdl. split; [done|]. by apply Harr.
Qed.

(** X19. A call of [eventually], however it ends, leaves the module's
    variables ([defaultRetries], [defaultFailHandler], [defaultBackoff]) as
    they were, and the object [defaultOptions] as it was loaded. *)
Theorem eventually_keeps_defaults n func options w r w' :
  loaded_defaults w ->
  eventually unhandledStrategy n func options w = Some (r, w') ->
  same_module w w' /\ loaded_defaults w'.
Proof.
  intros (a0 & Hd & Ha) H.
  pose proof (eventually_frame unhandledStrategy _ _ _ _ _ _ _ Hd H) as Hfr.
  pose proof (engine_frame_defaultOptions _ _ _ Hfr Hd) as Hd'.
  destruct Hfr as (Hm & Harr & _). split; [done|].
  exists a0. split; [done|]. by apply Harr.
Qed.

(** X20. Whatever has been configured, the fields a caller leaves out are
    resolved as follows: [fail] is the handler that resolves to [fail],
    [backoff] is an empty array, and the effective [retries] is the
    current [defaultRetries]. *)
Theorem omitted_fields_resolved func (l0 : loc) w c l o res w' :
  loaded_defaults w ->
  objects w !! l0 = Some c ->
  round func (Some l0) w = Some (l, o, res, w') ->
  (fail c = None -> fail o = Some initialFailHandler) /\
  (backoff c = None ->
     exists a0, backoff o = Some (BArr a0) /\ arrays w' !! a0 = Some []) /\
  (retries c = None -> effective_retries o w = defaultRetries w).
Proof.
  intros (a0 & Hd & Ha) Hc Hround.
  destruct (round_Some _ _ _ _ _ _ _ _ _ Hd Hc Hround) as [-> ->].
  pose proof (round_frame _ _ _ _ _ _ _ _ Hd Hround) as (_ & Harr & _).
  split; [|split].
  - intros Hf. simpl. by rewrite Hf.
  - intros Hb. exists a0. simpl. rewrite Hb. split; [done|]. by apply Harr.
  - intros Hr. unfold effective_retries. simpl. by rewrite Hr.
Qed.

(** X21. A call without options, on an operation that always fails: it
    makes [max(defaultRetries, 0) + 1] attempts, every delay is 0 ms, the
    one handler called is the handler that resolves to [fail], and the
    call rejects with the last attempt's error, whatever [fail] and
    [backoff] have been configured. *)
Theorem eventually_without_options n func w :
  loaded_defaults w ->
  always_fails func ->
  exists e w',
    eventually unhandledStrategy (S n) func None w = Some (Rejected e, w') /\
    attempts_in (trace w') = (attempts_in (trace w) + S (Z.to_nat (defaultRetries w)))%nat /\
    sleeps_in (trace w') = sleeps_in (trace w) ++ repeat 0 (Z.to_nat (defaultRetries w)) /\
    handler_calls_in (trace w') = S (handler_calls_in (trace w)) /\
    error_of func (Nat.iter (Z.to_nat (defaultRetries w)) (step func) (closure w)) = Some e.
Proof.
  intros (a0 & Hd & Ha) Hfail.
  destruct (tryDo_runs func (defaultRetries w) a0 w [] Ha)
    as (res & w1 & k & Hrun & Htr & Hcl & Hres & _ & _ & Hrej).
  destruct (Hfail (Nat.iter k (step func) (closure w))) as [e He].
  pose proof He as He'. apply error_of_Rejected in He'. rewrite He' in Hres.
  rewrite (Hrej e Hres) in *. subst res.
  assert (round func None w
          = Some (defaultOptions w,
                  mkOptions (Some 0) (Some initialFailHandler) (Some (BArr a0)) None,
                  Rejected e, w1)) as Hround.
  { unfold round, resolveOptions. cbn [mbind option_bind]. rewrite Hd.
    cbn [mbind option_bind retries backoff num_or backoff_or ensureArray].
    replace (0 =? 0) with true by done. by rewrite Hrun. }
  pose proof (round_objects _ _ _ _ _ _ _ Hround) as Ho.
  exists e, (after_handler e (closure w1) w1).
  rewrite (eventually_round unhandledStrategy _ _ _ _ _ _ _ _ Hround).
  rewrite (onExhausted_handler unhandledStrategy _ _ _ _ _ _ initialFailHandler Ho);
    [|done|done].
  split; [done|]. simpl. rewrite Htr.
  rewrite !attempts_in_app, !sleeps_in_app, !handler_calls_in_app. simpl.
  rewrite attempts_in_retry_events, sleeps_in_retry_events, length_delays.
  assert (handler_calls_in
            (retry_events (E:=E) (delays 0 [] (Z.to_nat (defaultRetries w)))) = 0%nat)
    as ->.
  { generalize (delays 0 [] (Z.to_nat (defaultRetries w))).
    intros ds. induction ds; simpl; done. }
  assert (forall m, delays 0 [] m = repeat 0 m) as ->.
  { intros m. induction m as [|m IH]; simpl; [done|]. by rewrite IH. }
  rewrite !app_nil_r. repeat split; try lia; done.
Qed.

(** *** A round, with the back-off it ran with *)

Lemma backoff_entries_frame o w w' xs :
  defaultBackoff w' = defaultBackoff w ->
  (forall a ds, arrays w !! a = Some ds -> arrays w' !! a = Some ds) ->
  backoff_entries o w = Some xs ->
  backoff_entries o w' = Some xs.
Proof.
  unfold backoff_entries. intros -> Harr.
  destruct (backoff_or (backoff o) (defaultBackoff w)); [done|apply Harr].
Qed.

Lemma round_entries func options w l o res w' :
  round func options w = Some (l, o, res, w') ->
  exists xs k,
    backoff_entries o w' = Some xs /\
    trace w' = trace w ++
      Attempt :: retry_events (delays (num_or (last xs) 0) xs k) /\
    res = (func (Nat.iter k (step func) (closure w))).1 /\
    (k <= Z.to_nat (effective_retries o w))%nat /\
    (forall e, res = Rejected e -> k = Z.to_nat (effective_retries o w)).
Proof.
  intros H. apply round_inv in H as (w1 & a & w2 & Hr & Ho & He & Ht).
  apply resolveOptions_closure in Hr as (Hc1 & Ht1 & (Hdr & _) & _).
  pose proof He as He'. apply ensureArray_frame in He' as (_ & Hm2 & Hc2 & Ht2 & _).
  pose proof Ht as Ht'. apply tryDo_frame in Ht' as (_ & Hm3 & Ha3).
  assert (defaultBackoff w' = defaultBackoff w1) as Hdb.
  { destruct Hm2 as (_ & _ & H2 & _). destruct Hm3 as (_ & _ & H3 & _). congruence. }
  assert (exists xs, arrays w2 !! a = Some xs /\ backoff_entries o w' = Some xs)
    as (xs & Ha & Hent).
  { unfold backoff_entries. rewrite Hdb.
    destruct (backoff_or (backoff o) (defaultBackoff w1)) as [v|a0].
    - cbn [ensureArray alloc_array] in He. injection He as <- <-.
      exists [v]. split; [simpl; apply lookup_insert_eq|done].
    - cbn [ensureArray] in He. injection He as <- <-.
      unfold tryDo in Ht. apply bind_Some in Ht as ([b w3] & Hs & _).
      apply slice_inv in Hs as (xs & Hxs & _). exists xs. split; [done|]. by apply Ha3. }
  destruct (tryDo_runs func (num_or (retries o) (defaultRetries w1)) a w2 xs Ha)
    as (res' & w'' & k & Hrun & Htr & _ & Hres & _ & Hk & Hrej).
  rewrite Ht in Hrun. injection Hrun as <- <-.
  exists xs, k. unfold effective_retries.
  rewrite <- Hdr, <- Hc1, <- Hc2, <- Ht1, <- Ht2. done.
Qed.

(** A round on an operation that always fails: all the retries are made,
    with the delays of the round's back-off. *)
Lemma round_always_failing func l w c d :
  callable l c d w ->
  always_fails func ->
  exists e w' xs,
    round func (Some l) w = Some (l, fill d c, Rejected e, w') /\
    backoff_entries (fill d c) w' = Some xs /\
    trace w' = trace w ++
      Attempt :: retry_events
        (delays (num_or (last xs) 0) xs (Z.to_nat (effective_retries (fill d c) w))) /\
    error_of func
      (Nat.iter (Z.to_nat (effective_retries (fill d c) w)) (step func) (closure w))
      = Some e.
Proof.
  intros Hcall Hfail.
  destruct (round_total func l w c d Hcall) as (res & w' & Hround).
  destruct (round_entries _ _ _ _ _ _ _ Hround) as (xs & k & Hent & Htr & Hres & _ & Hrej).
  destruct (Hfail (Nat.iter k (step func) (closure w))) as [e He].
  pose proof He as He'. apply error_of_Rejected in He'. rewrite He' in Hres.
  rewrite (Hrej e Hres) in *. subst res. by exists e, w', xs.
Qed.

(** [options.retries || defaultRetries]: the resolved value, unless it is 0. *)
Lemma effective_retries_nonzero o w (r : Z) :
  retries o = Some r -> r <> 0 -> effective_retries o w = r.
Proof.
  unfold effective_retries, num_or. intros -> Hr.
  by destruct (Z.eqb_spec r 0).
Qed.

Lemma effective_retries_zero o w :
  retries o = Some 0 -> effective_retries o w = defaultRetries w.
Proof. unfold effective_retries, num_or. by intros ->. Qed.

(** X22. A call whose effective [retries], [options.retries ||
    defaultRetries], is [r], on an operation that always fails, with no
    [redirect] and a [fail] handler that is missing or always resolves to
    [fail]: the operation is invoked exactly [max(r, 0) + 1] times, and the
    call rejects with the error of the last of these invocations. *)
Theorem eventually_attempts_of_always_failing n func l w c d :
  callable l c d w ->
  always_fails func ->
  redirect (fill d c) = None ->
  (fail (fill d c) = None \/
   exists h, fail (fill d c) = Some h /\
     forall e u, (h e u).1 = Fulfilled (HStrategy (strategy_value strategy_fail))) ->
  exists e w',
    eventually unhandledStrategy (S n) func (Some l) w = Some (Rejected e, w') /\
    attempts_in (trace w')
      = (attempts_in (trace w) + S (Z.to_nat (effective_retries (fill d c) w)))%nat /\
    error_of func
      (Nat.iter (Z.to_nat (effective_retries (fill d c) w)) (step func) (closure w))
      = Some e.
Proof.
  intros Hcall Hfail Hrd Hpolicy.
  destruct (round_always_failing func l w c d Hcall Hfail)
    as (e & w1 & xs & Hround & _ & Htr & He).
  pose proof (round_objects _ _ _ _ _ _ _ Hround) as Ho.
  rewrite (eventually_round unhandledStrategy _ _ _ _ _ _ _ _ Hround).
  destruct Hpolicy as [Hf|(h & Hf & Hh)].
  - exists e, w1. rewrite (onExhausted_no_handler unhandledStrategy _ _ _ _ _ _ Ho Hrd Hf).
    split; [done|]. split; [|done].
    by rewrite Htr, attempts_in_trace_shape, length_delays.
  - destruct (h e (closure w1)) as [hr u] eqn:Hcallh.
    pose proof (Hh e (closure w1)) as Hhr. rewrite Hcallh in Hhr. simpl in Hhr. subst hr.
    exists e, (after_handler e u w1).
    rewrite (onExhausted_handler unhandledStrategy _ _ _ _ _ _ _ Ho Hrd Hf).
    rewrite (call_fail_eq _ _ _ _ _ Hcallh).
    split; [done|]. split; [|done]. simpl.
    rewrite Htr, attempts_in_app, attempts_in_trace_shape, length_delays. simpl. lia.
Qed.

(** C5. When the effective options carry [redirect] and the retry budget is
    used up with last error [e], the call is a fresh call of [eventually] on
    the operation [() => redirect(e)] under a new object that holds the
    same [retries], [fail] and [backoff] and no [redirect]; a round under
    that object resolves to these same options. So a [redirect] that
    always fails is invoked as often as the effective [retries] of the
    original options allow, after the delays of the original back-off,
    and its last error goes to the original [fail] handler: when that
    handler is missing or resolves to [fail], the call rejects with the
    last error of [redirect]. *)
Theorem redirect_reenters_with_same_options n func options w l o e w' rd :
  round func options w = Some (l, o, Rejected e, w') ->
  redirect o = Some rd ->
  exists l' w'' o',
    omit l w' = Some (l', w'') /\
    eventually unhandledStrategy (S n) func options w =
      eventually unhandledStrategy n (fun u => rd e u) (Some l') w'' /\
    objects w'' !! l' = Some o' /\
    redirect o' = None /\ retries o' = retries o /\
    fail o' = fail o /\ backoff o' = backoff o /\
    (forall f l2 o2 r2 w3,
       round f (Some l') w'' = Some (l2, o2, r2, w3) -> l2 = l' /\ o2 = o') /\
    (always_fails (fun u => rd e u) ->
     exists e2 w3 ds,
       sleeps_in (trace w') = sleeps_in (trace w) ++ ds /\
       round (fun u => rd e u) (Some l') w'' = Some (l', o', Rejected e2, w3) /\
       attempts_in (trace w3)
         = (attempts_in (trace w'') + S (Z.to_nat (effective_retries o w)))%nat /\
       sleeps_in (trace w3) = sleeps_in (trace w'') ++ ds /\
       last_attempt_error (fun u => rd e u) e2 w3 /\
       ((fail o = None \/
         exists h, fail o = Some h /\
           (h e2 (closure w3)).1 = Fulfilled (HStrategy (strategy_value strategy_fail))) ->
        exists w4,
          eventually unhandledStrategy (S (S n)) func options w
            = Some (Rejected e2, w4))).
Proof.
  intros Hround Hrd.
  destruct (round_defaultOptions _ _ _ _ _ _ _ Hround) as [d Hd].
  destruct (round_callable _ _ _ _ _ _ _ d Hd Hround) as [Hcallable Hfill].
  pose proof (round_objects _ _ _ _ _ _ _ Hround) as Ho.
  destruct (round_array _ _ _ _ _ _ _ Hround) as [Hm1 _].
  set (l' := fresh (dom (objects w'))).
  set (w'' := set_objects (insert l' (omit_redirect o)) w').
  assert (omit l w' = Some (l', w'')) as Hom by (unfold omit; by rewrite Ho).
  destruct (omit_callable _ _ _ _ _ _ Hcallable Hom) as (Hcall2 & Hc2 & Ht2 & Hm2 & _).
  assert (fill d (omit_redirect o) = omit_redirect o) as Hfill2
    by (by rewrite fill_omit_redirect, Hfill).
  assert (forall m, eventually unhandledStrategy (S m) func options w =
            eventually unhandledStrategy m (fun u => rd e u) (Some l') w'') as Hre.
  { intros m. rewrite (eventually_round unhandledStrategy _ _ _ _ _ _ _ _ Hround).
    by rewrite (onExhausted_redirect unhandledStrategy _ _ _ _ _ _ _ Ho Hrd). }
  exists l', w'', (omit_redirect o).
  split; [done|]. split; [apply Hre|].
  split; [simpl; apply lookup_insert_eq|].
  split; [done|]. split; [done|]. split; [done|]. split; [done|]. split.
  { intros f l2 o2 r2 w3 H2. destruct Hcall2 as (Hd2 & Hc' & _).
    destruct (round_Some _ _ _ _ _ _ _ _ _ Hd2 Hc' H2) as [-> ->]. by rewrite Hfill2. }
  intros Hfail.
  destruct (round_entries _ _ _ _ _ _ _ Hround) as (xs & k & Hent & Htr & _ & _ & Hrej).
  rewrite (Hrej e eq_refl) in Htr.
  destruct (round_always_failing _ l' w'' _ d Hcall2 Hfail)
    as (e2 & w3 & xs2 & Hround2 & Hent2 & Htr2 & _).
  rewrite Hfill2 in Hround2, Hent2, Htr2.
  assert (effective_retries (omit_redirect o) w'' = effective_retries o w) as Heff.
  { unfold effective_retries. simpl. destruct Hm1 as (Hdr & _). by rewrite Hdr. }
  assert (xs2 = xs) as ->.
  { pose proof (round_frame d _ _ _ _ _ _ _ (proj1 Hcall2) Hround2) as (Hm3 & Harr3 & _).
    assert (backoff_entries o w3 = Some xs) as Hent3.
    { eapply backoff_entries_frame; [| |exact Hent].
      - destruct Hm3 as (_ & _ & Hdb & _). by rewrite Hdb.
      - intros a ds Ha. by apply Harr3. }
    unfold backoff_entries in Hent2, Hent3. simpl in Hent2. congruence. }
  rewrite Heff in Htr2.
  exists e2, w3, (delays (num_or (last xs) 0) xs (Z.to_nat (effective_retries o w))).
  split; [by rewrite Htr, sleeps_in_trace_shape|].
  split; [done|].
  split; [by rewrite Htr2, attempts_in_trace_shape, length_delays|].
  split; [by rewrite Htr2, sleeps_in_trace_shape|].
  split; [by eapply round_rejected|].
  intros Hpolicy. rewrite Hre.
  eapply round_fail_policy; [exact Hround2|done|exact Hpolicy].
Qed.

End PolicyShape.

(** ** The concrete runs, evaluated *)

Module Runs.

Import Scenario.

Lemma failing_always_fails : always_fails failing.
Proof. intros u. by exists (u + 1). Qed.

Lemma tryDo_always_failing_witness :
  exists e w',
    tryDo failing 3 ten_twenty.1 ten_twenty.2 = Some (Rejected e, w') /\
    Z.of_nat (attempts_in (trace w')) =
      Z.of_nat (attempts_in (trace ten_twenty.2)) + (3 + 1) /\
    closure w' = Nat.iter (Z.to_nat (3 + 1)) (step failing) (closure ten_twenty.2) /\
    error_of failing (Nat.iter (Z.to_nat 3) (step failing) (closure ten_twenty.2)) = Some e.
Proof.
  apply (tryDo_always_failing failing 3 ten_twenty.1 ten_twenty.2 [10; 20]).
  - lia.
  - vm_compute. reflexivity.
  - intros u. exists (u + 1). reflexivity.
Defined.

(** C2, on the code. With [backoff: [0, 100]] and three retries the code
    sleeps 100, 100 and 100 ms where the documentation has 0, 100 and
    100: [backoff.shift() || fallbackBackoff] takes an entry 0 for a missing
    one. With the default back-off set to 50, the scalar [backoff: 0]
    sleeps 50 ms and the sequence [backoff: [0]] sleeps 0 ms:
    [options.backoff || defaultBackoff] takes the scalar 0 for a missing
    one. *)
Theorem zero_delay_takes_the_fallback :
  observe (call_in (Some loaded) (fun _ => zero_then_100) failing 1)
    = Some (Rejected 4, 4%nat, [100; 100; 100]) /\
  documented_delays [0; 100] 3 = [0; 100; 100] /\
  observe (call_in backoff_50 scalar_zero failing 1) = Some (Rejected 3, 3%nat, [50; 50]) /\
  observe (call_in backoff_50 array_of_zero failing 1) = Some (Rejected 3, 3%nat, [0; 0]).
Proof. by vm_compute. Qed.

(** C3, on the code. After
    [configureDefaults({ retries: 2, fail: async () => suppress, backoff: [50] })]
    the module's variables hold the configured handler and back-off, but
    a call with [{}] is rejected, after delays of 0 ms: [fail] and [backoff]
    were filled from the object [defaultOptions], which still holds the
    values the module was loaded with. Only [retries] follows the
    configuration, through [options.retries || defaultRetries]. *)
Theorem omitted_fields_filled_from_initial_defaults :
  (fun w => (defaultRetries w, (defaultFailHandler w 0 0).1, arrays w !! defaultBackoff w))
    <$> all_configured
    = Some (2, Fulfilled (HStrategy (strategy_value strategy_suppress)), Some [50]) /\
  observe (call_in all_configured empty_options failing 1)
    = Some (Rejected 3, 3%nat, [0; 0]).
Proof. by vm_compute. Qed.

(** C1, on the code. After [configureDefaults({ retries: 2 })] a call with
    [retries: 0] resolves its options to [retries] 0, and yet the operation,
    which always fails, is invoked three times and the call rejects with
    the third error: [options.retries || defaultRetries] takes the resolved
    0 for a missing value. The claim has one invocation and the first
    error. *)
Theorem resolved_zero_retries_retried :
  match retries_2_configured with
  | Some w =>
    let '(l, w) := retries_0 w in
    (fun '(_, o, r, w') => (retries o, r, attempts_in (trace w')))
      <$> round failing (Some l) w
  | None => None
  end = Some (Some 0, Rejected 3, 3%nat) /\
  observe (call_in retries_2_configured retries_0 failing 1)
    = Some (Rejected 3, 3%nat, [0; 0]).
Proof. by vm_compute. Qed.

(** C4, on the code. After [configureDefaults({ retries: 2 })] a call with
    the explicit [retries: 0] makes three attempts and awaits two delays:
    [options.retries || defaultRetries] takes the caller's 0 for a missing
    value. *)
Theorem explicit_zero_retries_takes_the_default :
  observe (call_in retries_2_configured retries_0 failing 1)
    = Some (Rejected 3, 3%nat, [0; 0]).
Proof. by vm_compute. Qed.

Lemma redirect_reenters_with_same_options_witness :
  exists o w',
    round failing (Some redirecting_in_vain.1) redirecting_in_vain.2
      = Some (redirecting_in_vain.1, o, Rejected 2, w') /\
    redirect o = Some failing_redirect /\
    exists w4,
      eventually unhandled 2 failing (Some redirecting_in_vain.1) redirecting_in_vain.2
        = Some (Rejected 1002, w4) /\
      attempts_in (trace w4) = 4%nat /\ sleeps_in (trace w4) = [10; 10].
Proof.
  eexists _, _. split; [vm_compute; reflexivity|]. split; [reflexivity|].
  edestruct (redirect_reenters_with_same_options unhandled 0 failing
               (Some redirecting_in_vain.1) redirecting_in_vain.2)
    as (l' & w'' & o' & _ & _ & _ & _ & _ & _ & _ & _ & Hvain).
  - vm_compute. reflexivity.
  - reflexivity.
  - destruct Hvain as (e2 & w3 & ds & _ & _ & _ & _ & _ & Hpolicy).
    + intros u. exists (2 + 1000). reflexivity.
    + destruct Hpolicy as (w4 & Hrun).
      * right. eexists. split; [reflexivity|]. reflexivity.
      * pose proof Hrun as Hrun'. vm_compute in Hrun'.
        injection Hrun' as He Hw. exists w4. rewrite <- He in Hrun.
        split; [exact Hrun|]. rewrite <- Hw. split; vm_compute; reflexivity.
Defined.

Lemma handler_options_reenter_witness :
  exists o w1,
    round rejecting_current (Some first_options.1) first_options.2
      = Some (first_options.1, o, Rejected 1, w1) /\
    exists w4,
      eventually unhandled 2 rejecting_current (Some first_options.1) first_options.2
        = Some (Rejected 2, w4).
Proof.
  eexists _, _. split; [vm_compute; reflexivity|].
  edestruct (handler_options_reenter unhandled 0 rejecting_current
               (Some first_options.1) first_options.2) as [_ Hsecond].
  - vm_compute. reflexivity.
  - reflexivity.
  - reflexivity.
  - vm_compute. reflexivity.
  - vm_compute. reflexivity.
  - reflexivity.
  - edestruct Hsecond as [_ Hrun].
    + vm_compute. reflexivity.
    + reflexivity.
    + vm_compute. reflexivity.
    + exact Hrun.
Defined.

Lemma exhausted_rejects_with_last_error_witness :
  exists w',
    last_attempt_error failing 1 w' /\
    exists w'',
      eventually unhandled 1 failing (Some (retries_0 loaded).1) (retries_0 loaded).2
        = Some (Rejected 1, w'').
Proof.
  eexists.
  eapply (exhausted_rejects_with_last_error unhandled 0 failing
            (Some (retries_0 loaded).1) (retries_0 loaded).2).
  - vm_compute. reflexivity.
  - reflexivity.
  - right. eexists. split; [reflexivity|]. vm_compute. reflexivity.
Defined.

Lemma halt_never_settles_witness :
  exists w'',
    eventually unhandled 1 failing (Some halting.1) halting.2 = Some (Pending, w'') /\
    (forall v, eventually unhandled 1 failing (Some halting.1) halting.2
                 <> Some (Fulfilled v, w'')) /\
    (forall e', eventually unhandled 1 failing (Some halting.1) halting.2
                  <> Some (Rejected e', w'')).
Proof.
  eapply (halt_never_settles unhandled 0 failing (Some halting.1) halting.2).
  - vm_compute. reflexivity.
  - reflexivity.
  - reflexivity.
  - vm_compute. reflexivity.
Defined.

Lemma failing_handler_rejects_with_its_error_witness :
  exists w' u,
    eventually unhandled 1 failing (Some handler_throws.1) handler_throws.2
      = Some (Rejected 1001, after_handler 1 u w') /\
    trace (after_handler 1 u w') = trace w' ++ [FailHandler 1].
Proof.
  eexists _, _.
  eapply (failing_handler_rejects_with_its_error unhandled 0 failing
            (Some handler_throws.1) handler_throws.2).
  - vm_compute. reflexivity.
  - reflexivity.
  - reflexivity.
  - vm_compute. reflexivity.
Defined.

Lemma caller_options_filled_in_place_witness :
  exists r w' c d,
    eventually unhandled 1 failing (Some (retries_1 loaded).1) (retries_1 loaded).2
      = Some (r, w') /\
    objects w' !! (retries_1 loaded).1 = Some (fill d c) /\
    (forall a xs, arrays (retries_1 loaded).2 !! a = Some xs -> arrays w' !! a = Some xs).
Proof.
  eexists _, _, _, _. split; [vm_compute; reflexivity|].
  eapply (caller_options_filled_in_place unhandled 1 failing
            (retries_1 loaded).1 (retries_1 loaded).2).
  - vm_compute. reflexivity.
  - vm_compute. reflexivity.
  - vm_compute. reflexivity.
Defined.

(** C9, as it is worded, fails on [eventually(failing, { retries: 1 })]: the
    caller's object has no [backoff] before the call and holds the default
    array after it. *)
Lemma caller_options_written_to :
  ~ (forall r w',
       eventually unhandled 1 failing (Some (retries_1 loaded).1) (retries_1 loaded).2
         = Some (r, w') ->
       objects w' !! (retries_1 loaded).1
         = objects (retries_1 loaded).2 !! (retries_1 loaded).1).
Proof.
  intros H.
  assert (exists r w',
            eventually unhandled 1 failing (Some (retries_1 loaded).1) (retries_1 loaded).2
              = Some (r, w') /\
            backoff <$> objects w' !! (retries_1 loaded).1 = Some (Some (BArr 1%positive)))
    as (r & w' & Hrun & Hafter).
  { eexists _, _. split; vm_compute; reflexivity. }
  apply H in Hrun. rewrite Hrun in Hafter. vm_compute in Hafter. discriminate.
Qed.

End Runs.

(** ** More concrete runs *)

Module MoreRuns.

Import Scenario.

Lemma flaky_rejected_twice (closure0 : Z) (i : nat) :
  closure0 = 0 -> (i < 2)%nat ->
  is_Some (error_of flaky (Nat.iter i (step flaky) closure0)).
Proof. intros -> Hi. destruct i as [|[|i]]; [by eexists..|lia]. Qed.

Lemma tryDo_shape_witness :
  exists res w' k,
    tryDo failing 3 ten_twenty.1 ten_twenty.2 = Some (res, w') /\
    trace w' = trace ten_twenty.2 ++
      Attempt :: retry_events (delays (num_or (last [10; 20]) 0) [10; 20] k) /\
    closure w' = Nat.iter (S k) (step failing) (closure ten_twenty.2) /\
    res = (failing (Nat.iter k (step failing) (closure ten_twenty.2))).1 /\
    (forall i, (i < k)%nat ->
       is_Some (error_of failing (Nat.iter i (step failing) (closure ten_twenty.2)))) /\
    (k <= Z.to_nat 3)%nat /\
    (forall e, res = Rejected e -> k = Z.to_nat 3).
Proof.
  apply (tryDo_shape failing 3 ten_twenty.1 ten_twenty.2 [10; 20]).
  vm_compute. reflexivity.
Defined.

Lemma tryDo_succeeds_after_witness :
  exists w',
    tryDo flaky 3 ten_twenty.1 ten_twenty.2 = Some (Fulfilled 42, w') /\
    attempts_in (trace w') = (attempts_in (trace ten_twenty.2) + 3)%nat /\
    sleeps_in (trace w') = sleeps_in (trace ten_twenty.2) ++
      delays (num_or (last [10; 20]) 0) [10; 20] 2 /\
    closure w' = Nat.iter 3 (step flaky) (closure ten_twenty.2).
Proof.
  apply (tryDo_succeeds_after flaky 3 ten_twenty.1 ten_twenty.2 [10; 20] 2 42).
  - vm_compute. reflexivity.
  - intros i Hi. by apply flaky_rejected_twice.
  - vm_compute. reflexivity.
  - vm_compute. lia.
Defined.

Lemma tryDo_without_retries_witness :
  exists w',
    tryDo failing (-1) ten_twenty.1 ten_twenty.2
      = Some ((failing (closure ten_twenty.2)).1, w') /\
    trace w' = trace ten_twenty.2 ++ [Attempt] /\
    closure w' = step failing (closure ten_twenty.2).
Proof.
  apply (tryDo_without_retries failing (-1) ten_twenty.1 ten_twenty.2 [10; 20]).
  - lia.
  - vm_compute. reflexivity.
Defined.

Lemma tryDo_delays_of_always_failing_witness :
  exists e w',
    tryDo failing 3 zero_hundred.1 zero_hundred.2 = Some (Rejected e, w') /\
    attempts_in (trace w') = (attempts_in (trace zero_hundred.2) + S (Z.to_nat 3))%nat /\
    sleeps_in (trace w') = sleeps_in (trace zero_hundred.2) ++
      map (fun i => num_or ([0; 100] !! i) (num_or (last [0; 100]) 0)) (seq 0 (Z.to_nat 3)).
Proof.
  apply (tryDo_delays_of_always_failing failing 3 zero_hundred.1 zero_hundred.2 [0; 100]).
  - intros u. exists (u + 1). reflexivity.
  - vm_compute. reflexivity.
Defined.

Lemma tryDo_delays_without_zero_witness :
  exists e w',
    tryDo failing 3 ten_twenty.1 ten_twenty.2 = Some (Rejected e, w') /\
    sleeps_in (trace w') =
      sleeps_in (trace ten_twenty.2) ++ documented_delays [10; 20] (Z.to_nat 3).
Proof.
  apply (tryDo_delays_without_zero failing 3 ten_twenty.1 ten_twenty.2 [10; 20]).
  - intros u. exists (u + 1). reflexivity.
  - vm_compute. reflexivity.
  - repeat constructor; lia.
Defined.

Lemma scalar_backoff_as_singleton_witness :
  observable (let '(b, w') := ensureArray (backoff_or (Some (BNum 50)) 1%positive) fifty.2 in
              tryDo failing 2 b w') =
  observable (let '(b, w') :=
                ensureArray (backoff_or (Some (BArr fifty.1)) 1%positive) fifty.2 in
              tryDo failing 2 b w').
Proof.
  apply (scalar_backoff_as_singleton failing 2 50 fifty.1 1%positive fifty.2).
  - lia.
  - vm_compute. reflexivity.
Defined.

Ltac callable_here :=
  split; [vm_compute; reflexivity|];
  split; [vm_compute; reflexivity|];
  let a := fresh "a" in let Ha := fresh "Ha" in
  intros a Ha; vm_compute in Ha; injection Ha as <-; vm_compute; eauto.

Lemma suppress_resolves_undefined_witness :
  exists w' u,
    eventually unhandled 1 failing (Some suppressing.1) suppressing.2
      = Some (Fulfilled None, after_handler 2 u w') /\
    handler_calls_in (trace (after_handler 2 u w'))
      = S (handler_calls_in (trace suppressing.2)).
Proof.
  eexists _, _.
  eapply (suppress_resolves_undefined unhandled 0 failing
            (Some suppressing.1) suppressing.2).
  - vm_compute. reflexivity.
  - reflexivity.
  - reflexivity.
  - vm_compute. reflexivity.
Defined.

Lemma unknown_strategy_rejects_witness :
  exists w' u,
    eventually unhandled 1 failing (Some unknown_strategy.1) unknown_strategy.2
      = Some (Rejected (unhandled 7 1), after_handler 1 u w') /\
    (unhandled 7 1 <> 1 ->
     forall w'', eventually unhandled 1 failing (Some unknown_strategy.1) unknown_strategy.2
                   <> Some (Rejected 1, w'')).
Proof.
  eexists _, _.
  eapply (unknown_strategy_rejects unhandled 0 failing
            (Some unknown_strategy.1) unknown_strategy.2).
  - vm_compute. reflexivity.
  - reflexivity.
  - reflexivity.
  - vm_compute. reflexivity.
  - intros st. destruct st; simpl; lia.
Defined.

Lemma eventually_succeeds_after_witness :
  exists w',
    eventually unhandled 1 flaky (Some retries_3.1) retries_3.2
      = Some (Fulfilled (Some 42), w') /\
    attempts_in (trace w') = (attempts_in (trace retries_3.2) + 3)%nat /\
    length (sleeps_in (trace w')) = (length (sleeps_in (trace retries_3.2)) + 2)%nat /\
    handler_calls_in (trace w') = handler_calls_in (trace retries_3.2).
Proof.
  eapply (eventually_succeeds_after unhandled 0 flaky retries_3.1 retries_3.2 _ _ 2 42).
  - callable_here.
  - intros i Hi. by apply flaky_rejected_twice.
  - vm_compute. reflexivity.
  - vm_compute. lia.
Defined.

Lemma eventually_hangs_with_operation_witness :
  exists w',
    eventually unhandled 1 hanging (Some retries_3.1) retries_3.2 = Some (Pending, w') /\
    attempts_in (trace w') = (attempts_in (trace retries_3.2) + 2)%nat /\
    handler_calls_in (trace w') = handler_calls_in (trace retries_3.2).
Proof.
  eapply (eventually_hangs_with_operation unhandled 0 hanging retries_3.1 retries_3.2 _ _ 1).
  - callable_here.
  - intros i Hi. destruct i as [|i]; [by eexists|lia].
  - vm_compute. reflexivity.
  - vm_compute. lia.
Defined.

Lemma retry_until_success_witness :
  exists w',
    eventually unhandled 3 flaky (Some retrying.1) retrying.2
      = Some (Fulfilled (Some 42), w') /\
    attempts_in (trace w') = (attempts_in (trace retrying.2) + 3)%nat /\
    handler_calls_in (trace w') = (handler_calls_in (trace retrying.2) + 2)%nat /\
    sleeps_in (trace w') = sleeps_in (trace retrying.2).
Proof.
  eapply (retry_until_success unhandled 0 flaky retrying.1
            (resolves_to strategy_retry) 2 42 retrying.2).
  - callable_here.
  - reflexivity.
  - reflexivity.
  - intros e u. reflexivity.
  - by vm_compute.
  - intros i Hi. by apply flaky_rejected_twice.
  - vm_compute. reflexivity.
Defined.

Lemma redirect_value_returned_witness :
  exists (w' : W) (u : Z) (w'' : W),
    eventually unhandled 2 failing (Some redirecting.1) redirecting.2
      = Some (Fulfilled (Some 102), w'') /\
    closure w'' = u /\
    trace w'' = trace w' ++ [Attempt].
Proof.
  eexists _, _.
  eapply (redirect_value_returned unhandled 0 failing
            (Some redirecting.1) redirecting.2 redirecting.1 _ 2 _ fallback 102).
  - vm_compute. reflexivity.
  - reflexivity.
  - vm_compute. reflexivity.
Defined.

Lemma handler_redirect_reenters_witness :
  exists w3,
    eventually unhandled 2 failing (Some asks_handler.1) asks_handler.2
      = Some (Fulfilled (Some 101), w3).
Proof.
  edestruct (handler_redirect_reenters unhandled 0 failing
               (Some asks_handler.1) asks_handler.2)
    as (l' & w2 & o' & _ & _ & _ & _ & _ & _ & _ & _ & Hvalue).
  - vm_compute. reflexivity.
  - reflexivity.
  - reflexivity.
  - vm_compute. reflexivity.
  - callable_here.
  - reflexivity.
  - edestruct (Hvalue 101) as (w3 & Hrun & _).
    + vm_compute. reflexivity.
    + exists w3. exact Hrun.
Defined.

Lemma resolveOptions_idempotent_witness :
  exists w1,
    resolveOptions (Some (retries_1 loaded).1) (retries_1 loaded).2
      = Some ((retries_1 loaded).1, w1) /\
    resolveOptions (Some (retries_1 loaded).1) w1 = Some ((retries_1 loaded).1, w1).
Proof.
  eexists. split; [vm_compute; reflexivity|].
  eapply (resolveOptions_idempotent (retries_1 loaded).1 (retries_1 loaded).2
            (retries_1 loaded).1).
  vm_compute. reflexivity.
Defined.

Lemma configureDefaults_not_seen_by_resolveOptions_witness :
  exists w',
    configureDefaults backoff_50_options.1 backoff_50_options.2 = Some w' /\
    (fun '(l, w1) => (l, objects w1)) <$> resolveOptions (Some backoff_50_options.1) w' =
    (fun '(l, w1) => (l, objects w1)) <$>
      resolveOptions (Some backoff_50_options.1) backoff_50_options.2.
Proof.
  eexists. split; [vm_compute; reflexivity|].
  eapply (configureDefaults_not_seen_by_resolveOptions
            backoff_50_options.1 backoff_50_options.2).
  vm_compute. reflexivity.
Defined.

Lemma configureDefaults_keeps_loaded_defaults_witness :
  exists w',
    configureDefaults backoff_50_options.1 backoff_50_options.2 = Some w' /\
    loaded_defaults w'.
Proof.
  eexists. split; [vm_compute; reflexivity|].
  eapply (configureDefaults_keeps_loaded_defaults
            backoff_50_options.1 backoff_50_options.2).
  - exists 1%positive. split; vm_compute; reflexivity.
  - vm_compute. reflexivity.
Defined.

Lemma eventually_keeps_defaults_witness :
  exists r w',
    eventually unhandled 1 failing (Some (retries_1 loaded).1) (retries_1 loaded).2
      = Some (r, w') /\
    same_module (retries_1 loaded).2 w' /\ loaded_defaults w'.
Proof.
  eexists _, _. split; [vm_compute; reflexivity|].
  eapply (eventually_keeps_defaults unhandled 1 failing
            (Some (retries_1 loaded).1) (retries_1 loaded).2).
  - exists 1%positive. split; vm_compute; reflexivity.
  - vm_compute. reflexivity.
Defined.

Lemma omitted_fields_resolved_witness :
  exists o res w',
    round failing (Some (empty_options loaded).1) (empty_options loaded).2
      = Some ((empty_options loaded).1, o, res, w') /\
    (fail (mkOptions (U:=Z) (T:=Z) (E:=Z) None None None None) = None ->
       fail o = Some initialFailHandler) /\
    (backoff (mkOptions (U:=Z) (T:=Z) (E:=Z) None None None None) = None ->
       exists a0, backoff o = Some (BArr a0) /\ arrays w' !! a0 = Some []) /\
    (retries (mkOptions (U:=Z) (T:=Z) (E:=Z) None None None None) = None ->
       effective_retries o (empty_options loaded).2
         = defaultRetries (empty_options loaded).2).
Proof.
  eexists _, _, _. split; [vm_compute; reflexivity|].
  eapply (omitted_fields_resolved failing (empty_options loaded).1
            (empty_options loaded).2).
  - exists 1%positive. split; vm_compute; reflexivity.
  - vm_compute. reflexivity.
  - vm_compute. reflexivity.
Defined.

Lemma eventually_without_options_witness :
  exists e w',
    eventually unhandled 1 failing None loaded = Some (Rejected e, w') /\
    attempts_in (trace w')
      = (attempts_in (trace loaded) + S (Z.to_nat (defaultRetries loaded)))%nat /\
    sleeps_in (trace w')
      = sleeps_in (trace loaded) ++ repeat 0 (Z.to_nat (defaultRetries loaded)) /\
    handler_calls_in (trace w') = S (handler_calls_in (trace loaded)) /\
    error_of failing (Nat.iter (Z.to_nat (defaultRetries loaded)) (step failing)
                        (closure loaded)) = Some e.
Proof.
  apply (eventually_without_options unhandled 0 failing loaded).
  - exists 1%positive. split; vm_compute; reflexivity.
  - intros u. exists (u + 1). reflexivity.
Defined.

Lemma omit_copies_witness :
  exists l' w' c',
    omit redirecting.1 redirecting.2 = Some (l', w') /\
    l' <> redirecting.1 /\ objects redirecting.2 !! l' = None /\
    objects w' !! l' = Some c' /\
    redirect c' = None /\ retries c' = Some 1 /\
    fail c' = None /\ backoff c' = None /\
    objects w' !! redirecting.1 = Some (mkOptions (Some 1) None None (Some fallback)) /\
    (forall l1 c1, objects redirecting.2 !! l1 = Some c1 -> objects w' !! l1 = Some c1) /\
    arrays w' = arrays redirecting.2.
Proof.
  apply (omit_copies redirecting.1 redirecting.2
           (mkOptions (Some 1) None None (Some fallback))).
  vm_compute. reflexivity.
Defined.

Lemma configureDefaults_sets_variables_witness :
  exists w',
    configureDefaults backoff_50_options.1 backoff_50_options.2 = Some w' /\
    defaultRetries w' = defaultRetries backoff_50_options.2 /\
    defaultFailHandler w' = defaultFailHandler backoff_50_options.2 /\
    (arrays backoff_50_options.2 !! defaultBackoff w' = None /\
     arrays w' !! defaultBackoff w' = Some [50]) /\
    objects w' = objects backoff_50_options.2 /\
    defaultOptions w' = defaultOptions backoff_50_options.2 /\
    (forall a xs, arrays backoff_50_options.2 !! a = Some xs -> arrays w' !! a = Some xs) /\
    closure w' = closure backoff_50_options.2 /\ trace w' = trace backoff_50_options.2.
Proof.
  apply (configureDefaults_sets_variables backoff_50_options.1 backoff_50_options.2
           (mkOptions None None (Some (BNum 50)) None)).
  vm_compute. reflexivity.
Defined.

Lemma eventually_attempts_of_always_failing_witness :
  exists e w',
    eventually unhandled 1 failing (Some retries_3.1) retries_3.2 = Some (Rejected e, w') /\
    attempts_in (trace w') = (attempts_in (trace retries_3.2) + 4)%nat /\
    error_of failing (Nat.iter 3 (step failing) (closure retries_3.2)) = Some e.
Proof.
  apply (eventually_attempts_of_always_failing unhandled 0 failing
           retries_3.1 retries_3.2
           (mkOptions (Some 3) None None None)
           (mkOptions (Some 0) (Some initialFailHandler) (Some (BArr 1%positive)) None)).
  - callable_here.
  - intros u. exists (u + 1). reflexivity.
  - reflexivity.
  - right. eexists. split; [reflexivity|]. intros e u. reflexivity.
Defined.

End MoreRuns.
